(** * Classical producer-consumer ring buffer

    A shallow embedding of [utils::RingBuffer<T, Blocks, BlockSize>] from
    [src/coroutines/Classical_producer_consumer.cpp], and the properties of
    its specification checked against it.

    The embedding is sequential: one call runs to completion before the next
    one starts, which is what the mutex [lock_] enforces for the critical
    sections.  The two [std::counting_semaphore]s are counters.  A call whose
    [acquire()] finds the counter at zero never returns in a sequential run
    (nobody else can [release()]), so such a call has no result ([None]); a
    [try_acquire_for] that finds the counter at zero expires and returns
    [false].

    [std::size_t] values are modelled as [nat].  The only arithmetic the class
    performs on them is [(index + 1) % Blocks] and [std::min]; with
    [index < Blocks <= SIZE_MAX] the increment cannot wrap. *)

From stdpp Require Import base option list.

(** ** [std::counting_semaphore<Blocks>] as a counter *)

Module semaphore_type.

Definition t : Type := nat.

(** [acquire()]: decrement, blocking while the counter is zero. *)
Definition acquire (c : t) : option t :=
  match c with
  | 0 => None
  | S c' => Some c'
  end.

(** [try_acquire_for(rel_time)]: with no concurrent [release()], the wait
    expires exactly when the counter is zero. *)
Definition try_acquire_for (rel_time : nat) (c : t) : bool * t :=
  match c with
  | 0 => (false, 0)
  | S c' => (true, c')
  end.

(** [release()]: increment by one. *)
Definition release (c : t) : t := S c.

(** A pointer to a member function of the semaphore, as handed to
    [readImpl(Func&&, block_type&, Args&&...)]: either one returning [void]
    ([&semaphore_type::acquire]) or one returning [bool]
    ([&semaphore_type::try_acquire_for], already applied to its timeout). *)
Inductive member_fn : Type :=
| returns_void (f : t → option t)
| returns_bool (f : t → bool * t).

End semaphore_type.

Section ring_buffer.

Context {T : Type}.
Variable Blocks : nat.
Variable BlockSize : nat.

(** ** Data model *)

(** [struct block]: [size_] is the number of elements actually stored,
    [data_] the [std::array<T, BlockSize>]. *)
Record block : Type := Block { size_ : nat; data_ : list T }.

Global Instance block_inhabited : Inhabited block := populate (Block 0 []).

Definition block_wf (b : block) : Prop := length (data_ b) = BlockSize.

(** The data members of [RingBuffer], without the mutex. *)
Record RingBuffer : Type := mkRingBuffer {
  writeSemaphore_ : semaphore_type.t;
  readSemaphore_ : semaphore_type.t;
  writeIndex_ : nat;
  readIndex_ : nat;
  blocks_ : list block
}.

(** A newly constructed buffer: the member initialisers of the class, with
    [slots] standing for whatever the initialisation of
    [std::array<block_type, Blocks>] leaves in the storage. *)
Definition RingBuffer_new (slots : list block) : RingBuffer :=
  {| writeSemaphore_ := Blocks;
     readSemaphore_ := 0;
     writeIndex_ := 0;
     readIndex_ := 0;
     blocks_ := slots |}.

(** Value-initialised storage, as [std::make_shared<ring_buffer_t>()] in the
    test produces it: every [size_] is zero, every element is [T{}]. *)
Definition value_initialised (d : T) : list block :=
  replicate Blocks (Block 0 (replicate BlockSize d)).

Definition wf (rb : RingBuffer) : Prop :=
  length (blocks_ rb) = Blocks ∧
  writeIndex_ rb < Blocks ∧
  readIndex_ rb < Blocks.

(** ** Calls as state transformers that may block *)

Definition M (A : Type) : Type := RingBuffer → option (A * RingBuffer).

Definition ret {A} (a : A) : M A := λ rb, Some (a, rb).

Definition bind {A B} (m : M A) (k : A → M B) : M B :=
  λ rb, match m rb with
        | None => None
        | Some (a, rb') => k a rb'
        end.

Notation "x <~ m ;; k" := (bind m (λ x, k))
  (at level 100, m at next level, right associativity).
Notation "m ;;; k" := (bind m (λ _, k))
  (at level 100, right associativity).

Definition writeSemaphore_acquire : M unit := λ rb,
  match semaphore_type.acquire (writeSemaphore_ rb) with
  | None => None
  | Some c => Some (tt, mkRingBuffer c (readSemaphore_ rb) (writeIndex_ rb)
                          (readIndex_ rb) (blocks_ rb))
  end.

Definition writeSemaphore_release : M unit := λ rb,
  Some (tt, mkRingBuffer (semaphore_type.release (writeSemaphore_ rb))
              (readSemaphore_ rb) (writeIndex_ rb) (readIndex_ rb) (blocks_ rb)).

Definition readSemaphore_release : M unit := λ rb,
  Some (tt, mkRingBuffer (writeSemaphore_ rb)
              (semaphore_type.release (readSemaphore_ rb))
              (writeIndex_ rb) (readIndex_ rb) (blocks_ rb)).

(** [std::invoke(func, readSemaphore_, args...)]; a [void] result is
    reported as [true]. *)
Definition readSemaphore_invoke (func : semaphore_type.member_fn) : M bool := λ rb,
  let put c := mkRingBuffer (writeSemaphore_ rb) c (writeIndex_ rb)
                 (readIndex_ rb) (blocks_ rb) in
  match func with
  | semaphore_type.returns_void f =>
      match f (readSemaphore_ rb) with
      | None => None
      | Some c => Some (true, put c)
      end
  | semaphore_type.returns_bool f =>
      let '(ok, c) := f (readSemaphore_ rb) in Some (ok, put c)
  end.

Definition readSemaphore_acquire : M unit :=
  readSemaphore_invoke (semaphore_type.returns_void semaphore_type.acquire) ;;;
  ret tt.

Definition readSemaphore_try_acquire_for (timeout : nat) : M bool :=
  readSemaphore_invoke
    (semaphore_type.returns_bool (semaphore_type.try_acquire_for timeout)).

(** ** Producer operations *)

(** [std::copy(first, last, dst.begin())] onto a sequence that already has
    the elements: the first [length src] positions of [dst] are overwritten
    (past the end of [dst] the C++ behaviour is undefined; here the
    sequence is extended). *)
Definition std_copy (src dst : list T) : list T :=
  src ++ drop (length src) dst.

(** [void write(block_type&& data)] *)
Definition write_block (data : block) : M unit :=
  writeSemaphore_acquire ;;;
  (λ rb, Some (tt, mkRingBuffer (writeSemaphore_ rb) (readSemaphore_ rb)
                     ((writeIndex_ rb + 1) mod Blocks) (readIndex_ rb)
                     (<[writeIndex_ rb := data]> (blocks_ rb)))) ;;;
  readSemaphore_release.

(** [std::size_t write(Collection&& collection)], the collection given by
    the sequence of its elements. *)
Definition write_collection (collection : list T) : M nat :=
  let written := BlockSize `min` length collection in
  writeSemaphore_acquire ;;;
  (λ rb,
     let slot := blocks_ rb !!! writeIndex_ rb in
     let slot' := Block written (std_copy (take written collection) (data_ slot)) in
     Some (tt, mkRingBuffer (writeSemaphore_ rb) (readSemaphore_ rb)
                 ((writeIndex_ rb + 1) mod Blocks) (readIndex_ rb)
                 (<[writeIndex_ rb := slot']> (blocks_ rb)))) ;;;
  readSemaphore_release ;;;
  ret written.

(** ** Consumer operations *)

(** [bool readImpl(Func&& func)]: [func] is a callable on the slot that
    updates what it captured by reference, here a value of type [A]. *)
Definition readImpl_func {A} (func : block → A → A) (a : A) : M (bool * A) :=
  λ rb,
    if decide (writeIndex_ rb = readIndex_ rb) then Some ((false, a), rb)
    else
      (writeSemaphore_release ;;;
       ret (true, func (blocks_ rb !!! readIndex_ rb) a)) rb.

(** [bool readImpl(Func&& func, block_type& block, Args&&... args)] *)
Definition readImpl_block (func : semaphore_type.member_fn) (out : block)
  : M (bool * block) :=
  ok <~ readSemaphore_invoke func ;;
  if negb ok then ret (false, out)
  else
    λ rb,
      if decide (readIndex_ rb = writeIndex_ rb) then Some ((false, out), rb)
      else
        (writeSemaphore_release ;;;
         ret (true, blocks_ rb !!! readIndex_ rb))
          (mkRingBuffer (writeSemaphore_ rb) (readSemaphore_ rb)
             (writeIndex_ rb) ((readIndex_ rb + 1) mod Blocks) (blocks_ rb)).

(** [bool read(block_type& block)] *)
Definition read_block (out : block) : M (bool * block) :=
  readImpl_block (semaphore_type.returns_void semaphore_type.acquire) out.

(** [bool read_for(block_type& block, std::chrono::milliseconds timeout)] *)
Definition read_for_block (out : block) (timeout : nat) : M (bool * block) :=
  readImpl_block
    (semaphore_type.returns_bool (semaphore_type.try_acquire_for timeout)) out.

(** The growable sequence the collection reads append to: what
    [collection.reserve(n)] and [std::back_inserter(collection)] need. *)
Class Growable (C : Type) : Type := {
  items : C → list T;
  reserve : nat → C → C;
  push_back : T → C → C;
  items_reserve : ∀ n c, items (reserve n c) = items c;
  items_push_back : ∀ x c, items (push_back x c) = items c ++ [x]
}.

(** [std::copy(first, last, std::back_inserter(collection))] *)
Definition copy_back_inserter `{Growable C} (src : list T) (collection : C) : C :=
  foldl (λ c x, push_back x c) collection src.

(** The lambda of the collection reads. *)
Definition append_block `{Growable C} (b : block) (collection : C) : C :=
  copy_back_inserter (data_ b) (reserve (size_ b) collection).

(** [auto read(Collection& collection)] *)
Definition read_collection `{Growable C} (collection : C) : M (bool * C) :=
  readSemaphore_acquire ;;;
  readImpl_func append_block collection.

(** [auto read_for(Collection& collection, std::chrono::milliseconds timeout)] *)
Definition read_for_collection `{Growable C} (collection : C) (timeout : nat)
  : M (bool * C) :=
  ok <~ readSemaphore_try_acquire_for timeout ;;
  if negb ok then ret (false, collection)
  else readImpl_func append_block collection.

(** The lambda of the byte reads, on the caller's memory at [ptr] and the
    in-out [size]: [size = std::min(size, block.size_)] and then
    [std::memcpy(ptr, block.data_.data(), size)].  The overloads exist only
    for byte-like [T], so one element is one byte. *)
Definition copy_bytes (b : block) (out : list T * nat) : list T * nat :=
  let '(ptr, size) := out in
  let size' := size `min` size_ b in
  (std_copy (take size' (data_ b)) ptr, size').

(** [bool read_bytes(T* ptr, std::size_t& size)] *)
Definition read_bytes (ptr : list T) (size : nat) : M (bool * (list T * nat)) :=
  readSemaphore_acquire ;;;
  readImpl_func copy_bytes (ptr, size).

(** [bool read_bytes_for(T* ptr, std::size_t& size, timeout)] *)
Definition read_bytes_for (ptr : list T) (size : nat) (timeout : nat)
  : M (bool * (list T * nat)) :=
  ok <~ readSemaphore_try_acquire_for timeout ;;
  if negb ok then ret (false, (ptr, size))
  else readImpl_func copy_bytes (ptr, size).

(** The four reads through [readImpl(Func&&)] spelled out together: they
    differ only in the callable, and in whether an empty read counter
    blocks the call or makes it return [false]. *)
Definition func_read_result {A} (blocking : bool) (func : block → A → A)
    (a : A) (rb : RingBuffer) : option ((bool * A) * RingBuffer) :=
  match readSemaphore_ rb with
  | 0 => if blocking then None else Some ((false, a), rb)
  | S n =>
      if decide (writeIndex_ rb = readIndex_ rb)
      then Some ((false, a),
                 mkRingBuffer (writeSemaphore_ rb) n (writeIndex_ rb)
                   (readIndex_ rb) (blocks_ rb))
      else Some ((true, func (blocks_ rb !!! readIndex_ rb) a),
                 mkRingBuffer (S (writeSemaphore_ rb)) n (writeIndex_ rb)
                   (readIndex_ rb) (blocks_ rb))
  end.

(** [bool is_empty() const] *)
Definition is_empty (rb : RingBuffer) : bool :=
  bool_decide (writeIndex_ rb = readIndex_ rb).

(** ** [std::vector<T>] as the growable sequence *)

Record vector : Type := Vector { v_items : list T; v_capacity : nat }.

Definition vector_reserve (n : nat) (v : vector) : vector :=
  Vector (v_items v) (v_capacity v `max` n).

(** Appending reallocates when the storage is full; the new capacity is
    the library's choice (here the old length plus [max(length, 1)]). *)
Definition vector_push_back (x : T) (v : vector) : vector :=
  let len := length (v_items v) in
  Vector (v_items v ++ [x])
         (if decide (len < v_capacity v) then v_capacity v
          else len + (len `max` 1)).

Global Instance vector_growable : Growable vector :=
  {| items := v_items;
     reserve := vector_reserve;
     push_back := vector_push_back;
     items_reserve := λ _ _, eq_refl;
     items_push_back := λ _ _, eq_refl |}.

(** ** Calls and runs *)

(** One call on the buffer, with the arguments the caller passes. *)
Inductive call : Type :=
| Write (data : block)
| WriteCollection (collection : list T)
| Read (out : block)
| ReadFor (out : block) (timeout : nat)
| ReadCollection (collection : vector)
| ReadForCollection (collection : vector) (timeout : nat)
| ReadBytes (ptr : list T) (size : nat)
| ReadBytesFor (ptr : list T) (size : nat) (timeout : nat).

(** What a call hands back: its return value and its out-arguments. *)
Inductive reply : Type :=
| Wrote
| WroteCollection (written : nat)
| ReadReply (ok : bool) (out : block)
| ReadCollectionReply (ok : bool) (collection : vector)
| ReadBytesReply (ok : bool) (ptr : list T) (size : nat).

Definition exec (c : call) : M reply :=
  match c with
  | Write data => write_block data ;;; ret Wrote
  | WriteCollection collection =>
      n <~ write_collection collection ;; ret (WroteCollection n)
  | Read out =>
      r <~ read_block out ;; ret (ReadReply r.1 r.2)
  | ReadFor out timeout =>
      r <~ read_for_block out timeout ;; ret (ReadReply r.1 r.2)
  | ReadCollection collection =>
      r <~ read_collection collection ;; ret (ReadCollectionReply r.1 r.2)
  | ReadForCollection collection timeout =>
      r <~ read_for_collection collection timeout ;;
      ret (ReadCollectionReply r.1 r.2)
  | ReadBytes ptr size =>
      r <~ read_bytes ptr size ;; ret (ReadBytesReply r.1 r.2.1 r.2.2)
  | ReadBytesFor ptr size timeout =>
      r <~ read_bytes_for ptr size timeout ;;
      ret (ReadBytesReply r.1 r.2.1 r.2.2)
  end.

Definition is_write (c : call) : bool :=
  match c with
  | Write _ | WriteCollection _ => true
  | _ => false
  end.

(** The reads that copy into a caller's block. *)
Definition is_block_read (c : call) : bool :=
  match c with
  | Read _ | ReadFor _ _ => true
  | _ => false
  end.

(** The reads that go through [readImpl(Func&&)]: collection and byte reads. *)
Definition is_func_read (c : call) : bool :=
  match c with
  | ReadCollection _ | ReadForCollection _ _
  | ReadBytes _ _ | ReadBytesFor _ _ _ => true
  | _ => false
  end.

Definition is_timed_read (c : call) : bool :=
  match c with
  | ReadFor _ _ | ReadForCollection _ _ | ReadBytesFor _ _ _ => true
  | _ => false
  end.

(** A write always succeeds once it returns; a read reports it. *)
Definition succeeded (r : reply) : bool :=
  match r with
  | Wrote | WroteCollection _ => true
  | ReadReply ok _ | ReadCollectionReply ok _ | ReadBytesReply ok _ _ => ok
  end.

(** The reply of a read that returns [false] and leaves the caller's
    arguments as they were passed. *)
Definition untouched (c : call) : reply :=
  match c with
  | Write _ => Wrote
  | WriteCollection collection => WroteCollection 0
  | Read out | ReadFor out _ => ReadReply false out
  | ReadCollection collection | ReadForCollection collection _ =>
      ReadCollectionReply false collection
  | ReadBytes ptr size | ReadBytesFor ptr size _ => ReadBytesReply false ptr size
  end.

(** The reply of a successful collection or byte read that was shown
    [slot]. *)
Definition shown (c : call) (slot : block) : reply :=
  match c with
  | ReadCollection collection | ReadForCollection collection _ =>
      ReadCollectionReply true (append_block slot collection)
  | ReadBytes ptr size | ReadBytesFor ptr size _ =>
      let out := copy_bytes slot (ptr, size) in ReadBytesReply true out.1 out.2
  | _ => untouched c
  end.

(** The states a buffer can be in: newly constructed, or after a call that
    returned. *)
Inductive reachable : RingBuffer → Prop :=
| reachable_new slots :
    length slots = Blocks → reachable (RingBuffer_new slots)
| reachable_exec c rb r rb' :
    reachable rb → exec c rb = Some (r, rb') → reachable rb'.

(** A run of calls, one after the other; [None] when one of them blocks. *)
Fixpoint run (calls : list call) : M (list reply) :=
  match calls with
  | [] => ret []
  | c :: calls' =>
      r <~ exec c ;; rs <~ run calls' ;; ret (r :: rs)
  end.

(** [write(block)] for each block of a list, in order. *)
Fixpoint write_all (datas : list block) : M unit :=
  match datas with
  | [] => ret tt
  | data :: datas' => write_block data ;;; write_all datas'
  end.

(** [read(out)] once for each caller block of a list, in order, collecting
    the results. *)
Fixpoint read_all (outs : list block) : M (list (bool * block)) :=
  match outs with
  | [] => ret []
  | out :: outs' =>
      r <~ read_block out ;; rs <~ read_all outs' ;; ret (r :: rs)
  end.

(** ** Which slots hold data no reader has seen

    Bookkeeping beside a run: [unread !!! i] says that slot [i] was written
    and its content has not been handed to any reader since.  A write marks
    its slot, a successful read of any kind clears the mark of the slot at
    the read cursor. *)
Definition mark (c : call) (rb : RingBuffer) (r : reply) (unread : list bool)
  : list bool :=
  if is_write c then <[writeIndex_ rb := true]> unread
  else if succeeded r then <[readIndex_ rb := false]> unread
  else unread.

(** The call is a write and the slot it fills still holds unseen data. *)
Definition overwrites_unread (c : call) (rb : RingBuffer) (unread : list bool)
  : bool :=
  is_write c && (unread !!! writeIndex_ rb).

(** Runs the calls and reports whether one of them overwrote unseen data. *)
Fixpoint run_marked (calls : list call) (rb : RingBuffer) (unread : list bool)
  : option (bool * RingBuffer * list bool) :=
  match calls with
  | [] => Some (false, rb, unread)
  | c :: calls' =>
      match exec c rb with
      | None => None
      | Some (r, rb') =>
          match run_marked calls' rb' (mark c rb r unread) with
          | None => None
          | Some (bad, rb'', unread') =>
              Some (overwrites_unread c rb unread || bad, rb'', unread')
          end
      end
  end.

(** What a run of writes and block reads keeps true of the marks: the
    marked slots are the [Blocks - writeSemaphore_] slots from the read
    cursor on, and the write cursor is just behind them. *)
Definition marks_inv (rb : RingBuffer) (unread : list bool) : Prop :=
  length unread = Blocks ∧
  readIndex_ rb < Blocks ∧
  writeSemaphore_ rb ≤ Blocks ∧
  writeIndex_ rb = (readIndex_ rb + (Blocks - writeSemaphore_ rb)) mod Blocks ∧
  ∀ j, j < Blocks →
    unread !!! ((readIndex_ rb + j) mod Blocks) =
    bool_decide (j < Blocks - writeSemaphore_ rb).

(** ** Block traffic against a first-in first-out queue *)

(** The calls that hand over whole blocks: [write(block)] and the two block
    reads. *)
Definition is_block_call (c : call) : bool :=
  match c with
  | Write _ | Read _ | ReadFor _ _ => true
  | _ => false
  end.

(** The replies of a run agree with a queue holding [queue], oldest block
    first: each write appends its block, each read that returns [true] hands
    back the oldest block and removes it, a read that returns [false] leaves
    the queue. *)
Fixpoint fifo_replies (calls : list call) (rs : list reply) (queue : list block)
  : Prop :=
  match calls, rs with
  | [], [] => True
  | c :: calls', r :: rs' =>
      match c with
      | Write data => fifo_replies calls' rs' (queue ++ [data])
      | _ =>
          if succeeded r then
            match queue with
            | [] => False
            | oldest :: queue' =>
                r = ReadReply true oldest ∧ fifo_replies calls' rs' queue'
            end
          else fifo_replies calls' rs' queue
      end
  | _, _ => False
  end.

(** The buffer holds [queue]: its blocks sit in the slots from the read
    cursor on, the write cursor is just behind them, and the write counter
    counts the remaining slots. *)
Definition queue_inv (rb : RingBuffer) (queue : list block) : Prop :=
  length (blocks_ rb) = Blocks ∧
  readIndex_ rb < Blocks ∧
  length queue + writeSemaphore_ rb = Blocks ∧
  writeIndex_ rb = (readIndex_ rb + length queue) mod Blocks ∧
  ∀ j, j < length queue →
    queue !! j = Some (blocks_ rb !!! ((readIndex_ rb + j) mod Blocks)).

End ring_buffer.

(** ** A two-slot buffer of three-element blocks

    The buffer of the specification's worked scenario, [Blocks = 2] and
    [BlockSize = 3] over [nat], and a three-slot one, with the calls and the
    states the closed statements below are about. *)

Module Scenario.

(** [RingBuffer<nat, 2, 3>], value-initialised. *)
Definition fresh : @RingBuffer nat :=
  RingBuffer_new 2 (value_initialised 2 3 0).

Definition b123 : @block nat := Block 3 [1; 2; 3].
Definition b45 : @block nat := Block 2 [4; 5; 0].
Definition b000 : @block nat := Block 0 [0; 0; 0].

(** A caller's value-initialised [block_type data;]. *)
Definition out0 : @block nat := b000.

(** A caller's empty [std::vector]. *)
Definition no_items : @vector nat := Vector [] 0.

(** After [write(b123)]. *)
Definition one_written : @RingBuffer nat :=
  mkRingBuffer 1 1 1 0 [b123; b000].

(** After [write({4, 5})] on the new buffer. *)
Definition two_elements_written : @RingBuffer nat :=
  mkRingBuffer 1 1 1 0 [b45; b000].

(** After [write(b123)] and [write({4, 5})]: both slots filled. *)
Definition full : @RingBuffer nat :=
  mkRingBuffer 0 2 0 0 [b123; b45].

(** [RingBuffer<nat, 3, 3>] after [write(b123)] and [write(b45)]. *)
Definition two_of_three : @RingBuffer nat :=
  mkRingBuffer 1 2 2 0 [b123; b45; b000].

Definition b1 : @block nat := Block 1 [1; 0; 0].
Definition b2 : @block nat := Block 1 [2; 0; 0].
Definition b3 : @block nat := Block 1 [3; 0; 0].
Definition b4 : @block nat := Block 1 [4; 0; 0].

(** Six calls on the two-slot buffer; the last write lands on slot 1,
    which has held [b2] since the third call. *)
Definition overwriting_calls : list (@call nat) :=
  [Write b1; ReadCollection no_items; Write b2; Write b3; Read out0; Write b4].

(** The state the six calls end in. *)
Definition overwritten : @RingBuffer nat :=
  mkRingBuffer 0 2 0 1 [b3; b4].

(** After [read(out0)] on [one_written]. *)
Definition one_read : @RingBuffer nat :=
  mkRingBuffer 2 0 1 1 [b123; b000].

(** Block writes and block reads taking turns on the two-slot buffer. *)
Definition alternating_calls : list (@call nat) :=
  [Write b1; Read out0; Write b2; Read out0; Write b3; Read out0].

(** [RingBuffer<nat, 1, 3>] after [write(b123)]. *)
Definition single_written : @RingBuffer nat :=
  mkRingBuffer 0 1 0 0 [b123].

(** [RingBuffer<unsigned char, 2, 3>] after a write of the two bytes 1
    and 2. *)
Definition bytes_written : @RingBuffer Byte.byte :=
  mkRingBuffer 1 1 1 0
    [Block 2 [Byte.x01; Byte.x02; Byte.x00];
     Block 0 [Byte.x00; Byte.x00; Byte.x00]].

(** Four bytes of caller memory. *)
Definition memory : list Byte.byte :=
  [Byte.xff; Byte.xff; Byte.xff; Byte.xff].

End Scenario.

(** * Properties *)

Section properties.

Context {T : Type}.
Variable Blocks : nat.
Variable BlockSize : nat.

Implicit Types (rb : @RingBuffer T) (c : @call T) (r : @reply T).
Implicit Types (out data slot : @block T) (collection : list T).
Implicit Types (slots datas outs : list (@block T)) (calls : list (@call T)).

(** Unfolds a call down to the counters, the cursors and the slot array. *)
Ltac unfold_call :=
  cbv beta iota zeta delta
    [exec write_block write_collection read_block read_for_block
     read_collection read_for_collection read_bytes read_bytes_for
     readImpl_block readImpl_func readSemaphore_acquire
     readSemaphore_try_acquire_for readSemaphore_invoke
     writeSemaphore_acquire writeSemaphore_release readSemaphore_release
     bind ret semaphore_type.acquire semaphore_type.try_acquire_for
     semaphore_type.release negb fst snd] in *.

(** Splits on every counter test and cursor comparison of an unfolded call. *)
Ltac split_call := unfold_call; repeat case_match; simplify_eq/=.

(** ** The calls, equation by equation *)

Lemma write_block_unfold data rb :
  write_block Blocks data rb =
  match writeSemaphore_ rb with
  | 0 => None
  | S n =>
      Some (tt, mkRingBuffer n (S (readSemaphore_ rb))
                  ((writeIndex_ rb + 1) mod Blocks) (readIndex_ rb)
                  (<[writeIndex_ rb := data]> (blocks_ rb)))
  end.
Proof. unfold_call. by destruct (writeSemaphore_ rb). Qed.

Lemma write_collection_unfold collection rb :
  write_collection Blocks BlockSize collection rb =
  let written := BlockSize `min` length collection in
  match writeSemaphore_ rb with
  | 0 => None
  | S n =>
      Some (written,
            mkRingBuffer n (S (readSemaphore_ rb))
              ((writeIndex_ rb + 1) mod Blocks) (readIndex_ rb)
              (<[writeIndex_ rb :=
                   Block written
                     (std_copy (take written collection)
                        (data_ (blocks_ rb !!! writeIndex_ rb)))]>
                 (blocks_ rb)))
  end.
Proof. unfold_call. by destruct (writeSemaphore_ rb). Qed.

Lemma read_block_unfold out rb :
  read_block Blocks out rb =
  match readSemaphore_ rb with
  | 0 => None
  | S n =>
      if decide (readIndex_ rb = writeIndex_ rb)
      then Some ((false, out),
                 mkRingBuffer (writeSemaphore_ rb) n (writeIndex_ rb)
                   (readIndex_ rb) (blocks_ rb))
      else Some ((true, blocks_ rb !!! readIndex_ rb),
                 mkRingBuffer (S (writeSemaphore_ rb)) n (writeIndex_ rb)
                   ((readIndex_ rb + 1) mod Blocks) (blocks_ rb))
  end.
Proof.
  unfold_call. destruct (readSemaphore_ rb); [done|]. simpl.
  by destruct (decide _).
Qed.

Lemma read_for_block_unfold out timeout rb :
  read_for_block Blocks out timeout rb =
  match readSemaphore_ rb with
  | 0 => Some ((false, out), rb)
  | S n =>
      if decide (readIndex_ rb = writeIndex_ rb)
      then Some ((false, out),
                 mkRingBuffer (writeSemaphore_ rb) n (writeIndex_ rb)
                   (readIndex_ rb) (blocks_ rb))
      else Some ((true, blocks_ rb !!! readIndex_ rb),
                 mkRingBuffer (S (writeSemaphore_ rb)) n (writeIndex_ rb)
                   ((readIndex_ rb + 1) mod Blocks) (blocks_ rb))
  end.
Proof.
  unfold_call. destruct rb as [ws [|n] wi ri bs]; simpl; [done|].
  by destruct (decide _).
Qed.

Lemma read_collection_unfold `{Growable T C} (collection : C) rb :
  read_collection collection rb =
  func_read_result true append_block collection rb.
Proof.
  unfold func_read_result. unfold_call.
  destruct (readSemaphore_ rb); [done|]. simpl. by destruct (decide _).
Qed.

Lemma read_for_collection_unfold `{Growable T C} (collection : C) timeout rb :
  read_for_collection collection timeout rb =
  func_read_result false append_block collection rb.
Proof.
  unfold func_read_result. unfold_call.
  destruct rb as [ws [|n] wi ri bs]; simpl; [done|]. by destruct (decide _).
Qed.

Lemma read_bytes_unfold ptr size rb :
  read_bytes ptr size rb = func_read_result true copy_bytes (ptr, size) rb.
Proof.
  unfold func_read_result. unfold_call.
  destruct (readSemaphore_ rb); [done|]. simpl. by destruct (decide _).
Qed.

Lemma read_bytes_for_unfold ptr size timeout rb :
  read_bytes_for ptr size timeout rb =
  func_read_result false copy_bytes (ptr, size) rb.
Proof.
  unfold func_read_result. unfold_call.
  destruct rb as [ws [|n] wi ri bs]; simpl; [done|]. by destruct (decide _).
Qed.

(** ** Counter accounting *)

(** C4. The write counter starts at [Blocks] and the read counter at zero;
    a write that returns takes one unit from the write counter and gives
    one to the read counter, a read that returns [true] does the opposite,
    so either of them keeps a sum of [Blocks] at [Blocks]. *)
Theorem semaphore_sum_preserved c rb r rb' :
  exec Blocks BlockSize c rb = Some (r, rb') →
  succeeded r = true →
  (∀ slots, writeSemaphore_ (RingBuffer_new Blocks slots) = Blocks ∧
            readSemaphore_ (RingBuffer_new Blocks slots) = 0) ∧
  (if is_write c
   then writeSemaphore_ rb = S (writeSemaphore_ rb') ∧
        readSemaphore_ rb' = S (readSemaphore_ rb)
   else readSemaphore_ rb = S (readSemaphore_ rb') ∧
        writeSemaphore_ rb' = S (writeSemaphore_ rb)) ∧
  (writeSemaphore_ rb + readSemaphore_ rb = Blocks →
   writeSemaphore_ rb' + readSemaphore_ rb' = Blocks).
Proof.
  intros Hexec Hok. split; [done|].
  destruct c; split_call; (split; [done | lia]).
Qed.

(** C3. When [read(block)] has taken its unit of the read counter and then
    finds the read cursor equal to the write cursor, it returns [false]
    with the caller's block, both cursors and the slot array as they were;
    the unit of the read counter is gone and the write counter did not
    move, so a sum of [Blocks] has become [Blocks - 1]. *)
Theorem read_block_recheck_failure out rb n :
  readSemaphore_ rb = S n →
  readIndex_ rb = writeIndex_ rb →
  ∃ rb',
    read_block Blocks out rb = Some ((false, out), rb') ∧
    writeIndex_ rb' = writeIndex_ rb ∧
    readIndex_ rb' = readIndex_ rb ∧
    blocks_ rb' = blocks_ rb ∧
    readSemaphore_ rb' = n ∧
    writeSemaphore_ rb' = writeSemaphore_ rb ∧
    (writeSemaphore_ rb + readSemaphore_ rb = Blocks →
     writeSemaphore_ rb' + readSemaphore_ rb' = Blocks - 1).
Proof.
  intros Hrs Heq. rewrite read_block_unfold, Hrs.
  rewrite decide_True by done.
  eexists. split; [done|]. simpl. repeat split. lia.
Qed.

(** ** Timed reads that expire *)

(** C9. A timed read that finds the read counter at zero returns [false],
    hands the caller's arguments back as they were passed and leaves the
    buffer, counters included, exactly as it was. *)
Theorem timed_read_expiry c rb :
  is_timed_read c = true →
  readSemaphore_ rb = 0 →
  exec Blocks BlockSize c rb = Some (untouched c, rb) ∧
  succeeded (untouched c) = false.
Proof.
  intros Htimed Hrs. destruct rb as [ws rs wi ri bs]. simpl in Hrs. subst rs.
  by destruct c.
Qed.

(** ** Collection and byte reads *)

Lemma func_read_result_true {A} blocking (func : block → A → A) a a' rb rb' :
  func_read_result blocking func a rb = Some ((true, a'), rb') →
  a' = func (blocks_ rb !!! readIndex_ rb) a ∧
  readIndex_ rb' = readIndex_ rb ∧
  writeIndex_ rb' = writeIndex_ rb ∧
  blocks_ rb' = blocks_ rb ∧
  writeSemaphore_ rb' = S (writeSemaphore_ rb) ∧
  readSemaphore_ rb = S (readSemaphore_ rb').
Proof.
  unfold func_read_result. intros H.
  repeat case_match; by simplify_eq/=.
Qed.

Lemma func_read_shown c rb r rb' :
  is_func_read c = true →
  exec Blocks BlockSize c rb = Some (r, rb') →
  succeeded r = true →
  r = shown c (blocks_ rb !!! readIndex_ rb) ∧
  readIndex_ rb' = readIndex_ rb ∧
  writeIndex_ rb' = writeIndex_ rb ∧
  blocks_ rb' = blocks_ rb ∧
  writeSemaphore_ rb' = S (writeSemaphore_ rb).
Proof.
  intros Hc Hexec Hok.
  destruct c; try done; split_call; done.
Qed.

(** C10. A collection or byte read that returns [true] leaves both cursors
    and every slot as they were and adds one to the write counter; two
    such reads in a row are therefore shown the same slot, the one at the
    unchanged read cursor. *)
Theorem func_reads_do_not_consume c1 c2 rb r1 rb1 r2 rb2 :
  is_func_read c1 = true →
  is_func_read c2 = true →
  exec Blocks BlockSize c1 rb = Some (r1, rb1) →
  succeeded r1 = true →
  exec Blocks BlockSize c2 rb1 = Some (r2, rb2) →
  succeeded r2 = true →
  (readIndex_ rb1 = readIndex_ rb ∧ writeIndex_ rb1 = writeIndex_ rb ∧
   blocks_ rb1 = blocks_ rb ∧ writeSemaphore_ rb1 = S (writeSemaphore_ rb)) ∧
  (readIndex_ rb2 = readIndex_ rb ∧ writeIndex_ rb2 = writeIndex_ rb ∧
   blocks_ rb2 = blocks_ rb ∧ writeSemaphore_ rb2 = S (S (writeSemaphore_ rb))) ∧
  r1 = shown c1 (blocks_ rb !!! readIndex_ rb) ∧
  r2 = shown c2 (blocks_ rb !!! readIndex_ rb).
Proof.
  intros Hc1 Hc2 H1 Hok1 H2 Hok2.
  destruct (func_read_shown _ _ _ _ Hc1 H1 Hok1) as (-> & Hri & Hwi & Hbs & Hws).
  destruct (func_read_shown _ _ _ _ Hc2 H2 Hok2) as (-> & Hri' & Hwi' & Hbs' & Hws').
  rewrite Hbs, Hri in *. repeat split; congruence.
Qed.

(** ** Writing a collection *)

Lemma std_copy_take_drop (src dst : list T) n :
  n = length src → n ≤ length dst →
  take n (std_copy src dst) = src ∧
  drop n (std_copy src dst) = drop n dst ∧
  length (std_copy src dst) = length dst.
Proof.
  intros -> Hle. unfold std_copy. split_and!.
  - by rewrite take_app_length.
  - by rewrite drop_app_length.
  - rewrite length_app, length_drop. lia.
Qed.

(** C5. [write(collection)], once admitted, records
    [n = min(BlockSize, length)] as the element count of the slot at the
    write cursor, overwrites the first [n] elements of that slot with the
    first [n] elements of the collection and nothing else, moves the write
    cursor on by one and returns [n]; a collection longer than a slot
    fills the slot with its first [BlockSize] elements. *)
Theorem write_collection_truncates collection rb m :
  writeSemaphore_ rb = S m →
  writeIndex_ rb < length (blocks_ rb) →
  block_wf BlockSize (blocks_ rb !!! writeIndex_ rb) →
  let n := BlockSize `min` length collection in
  ∃ rb',
    write_collection Blocks BlockSize collection rb = Some (n, rb') ∧
    writeIndex_ rb' = (writeIndex_ rb + 1) mod Blocks ∧
    size_ (blocks_ rb' !!! writeIndex_ rb) = n ∧
    take n (data_ (blocks_ rb' !!! writeIndex_ rb)) = take n collection ∧
    drop n (data_ (blocks_ rb' !!! writeIndex_ rb)) =
      drop n (data_ (blocks_ rb !!! writeIndex_ rb)) ∧
    block_wf BlockSize (blocks_ rb' !!! writeIndex_ rb) ∧
    (∀ i, i ≠ writeIndex_ rb → blocks_ rb' !! i = blocks_ rb !! i) ∧
    (BlockSize < length collection →
     n = BlockSize ∧
     data_ (blocks_ rb' !!! writeIndex_ rb) = take BlockSize collection).
Proof.
  intros Hws Hwi Hwf n. unfold block_wf in *.
  rewrite write_collection_unfold, Hws. cbv zeta. fold n.
  eexists. split; [done|]. simpl.
  rewrite list_lookup_total_insert_eq by done. simpl.
  assert (Hn : n = length (take n collection)).
  { rewrite length_take. lia. }
  destruct (std_copy_take_drop (take n collection)
              (data_ (blocks_ rb !!! writeIndex_ rb)) n) as (Ht & Hd & Hl);
    [done | lia |].
  split_and!; try done.
  - congruence.
  - intros i Hi. by rewrite list_lookup_insert_ne.
  - intros Hlong. assert (n = BlockSize) as Hn' by lia. split; [done|].
    rewrite <- Hn'. etrans; [|exact Ht]. symmetry. apply take_ge. lia.
Qed.

(** ** Runs of writes *)

Lemma run_writes calls rb :
  Forall (λ c, is_write c = true) calls →
  length calls ≤ writeSemaphore_ rb →
  writeIndex_ rb mod Blocks = writeIndex_ rb →
  ∃ rs rb',
    run Blocks BlockSize calls rb = Some (rs, rb') ∧
    writeSemaphore_ rb' + length calls = writeSemaphore_ rb ∧
    readSemaphore_ rb' = readSemaphore_ rb + length calls ∧
    writeIndex_ rb' = (writeIndex_ rb + length calls) mod Blocks ∧
    readIndex_ rb' = readIndex_ rb ∧
    length (blocks_ rb') = length (blocks_ rb).
Proof.
  intros Hw. revert rb. induction Hw as [|c calls Hc _ IH]; intros rb Hlen Hwi.
  - exists [], rb. simpl. rewrite !Nat.add_0_r, Hwi. done.
  - simpl in Hlen.
    assert (∃ r rb1, exec Blocks BlockSize c rb = Some (r, rb1) ∧
              writeSemaphore_ rb = S (writeSemaphore_ rb1) ∧
              readSemaphore_ rb1 = S (readSemaphore_ rb) ∧
              writeIndex_ rb1 = (writeIndex_ rb + 1) mod Blocks ∧
              readIndex_ rb1 = readIndex_ rb ∧
              length (blocks_ rb1) = length (blocks_ rb)) as
      (r & rb1 & Hexec & Hws & Hrs & Hwi1 & Hri & Hbs).
    { destruct (writeSemaphore_ rb) as [|n] eqn:Hn; [lia|].
      destruct c; try done; unfold_call; rewrite Hn; simpl;
        do 2 eexists; (split; [done|]); simpl;
        rewrite length_insert; done. }
    destruct (IH rb1) as (rs & rb' & Hrun & Hws' & Hrs' & Hwi' & Hri' & Hbs').
    { lia. }
    { rewrite Hwi1. apply Nat.Div0.mod_mod. }
    exists (r :: rs), rb'. simpl. unfold bind at 1. rewrite Hexec.
    unfold bind at 1. rewrite Hrun. unfold ret.
    split_and!; try done; try lia; try congruence.
    rewrite Hwi', Hwi1, Nat.Div0.add_mod_idemp_l. f_equal. lia.
Qed.

(** ** [is_empty] *)

(** C7. [is_empty()] is the comparison of the two cursors; it answers
    [true] on a new buffer and again after [Blocks] writes with no read in
    between, when all [Blocks] slots are filled. *)
Theorem is_empty_cannot_tell_full calls slots :
  Forall (λ c, is_write c = true) calls →
  length calls = Blocks →
  (∀ rb, is_empty rb = true ↔ writeIndex_ rb = readIndex_ rb) ∧
  is_empty (RingBuffer_new Blocks slots) = true ∧
  ∃ rs rb,
    run Blocks BlockSize calls (RingBuffer_new Blocks slots) = Some (rs, rb) ∧
    readSemaphore_ rb = Blocks ∧
    is_empty rb = true.
Proof.
  intros Hw Hlen. split; [|split].
  - intros rb. unfold is_empty. apply bool_decide_eq_true.
  - done.
  - destruct (run_writes calls (RingBuffer_new Blocks slots) Hw)
      as (rs & rb & Hrun & _ & Hrs & Hwi & Hri & _).
    { simpl. lia. }
    { simpl. apply Nat.Div0.mod_0_l. }
    exists rs, rb. split; [done|]. simpl in *. split; [lia|].
    unfold is_empty. apply bool_decide_eq_true.
    rewrite Hwi, Hri, Hlen. apply Nat.Div0.mod_same.
Qed.

(** ** Cursors *)

Lemma exec_wf c rb r rb' :
  0 < Blocks → wf Blocks rb → exec Blocks BlockSize c rb = Some (r, rb') →
  wf Blocks rb'.
Proof.
  intros Hpos (Hlen & Hwi & Hri) Hexec.
  assert (∀ i, (i + 1) mod Blocks < Blocks) as Hmod.
  { intros i. apply Nat.mod_upper_bound. lia. }
  destruct c; split_call; unfold wf; simpl;
    rewrite ?length_insert; auto.
Qed.

(** In every state a buffer of at least one slot can reach, both cursors
    index a slot. *)
Lemma reachable_wf rb :
  0 < Blocks → reachable Blocks BlockSize rb → wf Blocks rb.
Proof.
  intros Hpos. induction 1 as [slots Hlen | c rb r rb' _ IH Hexec].
  - by unfold wf.
  - by eapply exec_wf.
Qed.

(** A write moves the write cursor on by one, modulo [Blocks], and leaves
    the read cursor. *)
Lemma write_advances_write_cursor c rb r rb' :
  is_write c = true →
  exec Blocks BlockSize c rb = Some (r, rb') →
  writeIndex_ rb' = (writeIndex_ rb + 1) mod Blocks ∧
  readIndex_ rb' = readIndex_ rb.
Proof. intros Hc Hexec. by destruct c; split_call. Qed.

(** A block read that returns [true] moves the read cursor on by one,
    modulo [Blocks], and leaves the write cursor. *)
Lemma block_read_advances_read_cursor c rb r rb' :
  is_block_read c = true →
  exec Blocks BlockSize c rb = Some (r, rb') →
  succeeded r = true →
  readIndex_ rb' = (readIndex_ rb + 1) mod Blocks ∧
  writeIndex_ rb' = writeIndex_ rb.
Proof. intros Hc Hexec Hok. by destruct c; split_call. Qed.

(** A read that returns [false] moves neither cursor. *)
Lemma failed_read_keeps_cursors c rb r rb' :
  exec Blocks BlockSize c rb = Some (r, rb') →
  succeeded r = false →
  readIndex_ rb' = readIndex_ rb ∧ writeIndex_ rb' = writeIndex_ rb.
Proof. intros Hexec Hok. by destruct c; split_call. Qed.

(** A collection or byte read that returns [true] leaves the read cursor
    where it was, which with two or more slots is not the next position. *)
Lemma func_read_keeps_read_cursor c rb r rb' :
  1 < Blocks →
  is_func_read c = true →
  exec Blocks BlockSize c rb = Some (r, rb') →
  succeeded r = true →
  readIndex_ rb' = readIndex_ rb ∧
  readIndex_ rb' ≠ (readIndex_ rb + 1) mod Blocks.
Proof.
  intros Hpos Hc Hexec Hok.
  destruct (func_read_shown _ _ _ _ Hc Hexec Hok) as (_ & Hri & _).
  split; [done|]. rewrite Hri. clear Hri. intros Heq.
  destruct (decide (readIndex_ rb + 1 < Blocks)) as [Hlt|Hge].
  - rewrite Nat.mod_small in Heq by done. lia.
  - assert ((readIndex_ rb + 1) mod Blocks < Blocks) as Hlt
      by (apply Nat.mod_upper_bound; lia).
    assert (readIndex_ rb + 1 = Blocks) as Hlast by lia.
    rewrite Hlast, Nat.Div0.mod_same in Heq. lia.
Qed.

(** ** Capacity *)

Lemma write_blocked c rb :
  is_write c = true → writeSemaphore_ rb = 0 →
  exec Blocks BlockSize c rb = None.
Proof. intros Hc Hws. destruct c; try done; unfold_call; by rewrite Hws. Qed.

Lemma write_counter_grows_by_read_only c rb r rb' :
  exec Blocks BlockSize c rb = Some (r, rb') →
  writeSemaphore_ rb < writeSemaphore_ rb' →
  is_write c = false ∧ succeeded r = true.
Proof. intros Hexec Hlt. destruct c; split_call; done || lia. Qed.

(** After [Blocks] writes on a new buffer the write counter is zero and a
    further write does not return. *)
Lemma capacity_bound calls slots c :
  Forall (λ c, is_write c = true) calls →
  length calls = Blocks →
  is_write c = true →
  ∃ rs rb,
    run Blocks BlockSize calls (RingBuffer_new Blocks slots) = Some (rs, rb) ∧
    writeSemaphore_ rb = 0 ∧
    exec Blocks BlockSize c rb = None.
Proof.
  intros Hw Hlen Hc.
  destruct (run_writes calls (RingBuffer_new Blocks slots) Hw)
    as (rs & rb & Hrun & Hws & _).
  { simpl. lia. }
  { simpl. apply Nat.Div0.mod_0_l. }
  simpl in Hws. assert (writeSemaphore_ rb = 0) as Hzero by lia.
  exists rs, rb. split_and!; [done..|]. by apply write_blocked.
Qed.

(** ** Block writes followed by block reads *)

Lemma write_all_app datas1 datas2 rb :
  write_all Blocks (datas1 ++ datas2) rb =
  match write_all Blocks datas1 rb with
  | None => None
  | Some (_, rb') => write_all Blocks datas2 rb'
  end.
Proof.
  revert rb. induction datas1 as [|d datas1 IH]; intros rb; [done|].
  simpl. unfold bind.
  destruct (write_block Blocks d rb) as [[[] rb1]|]; [|done]. apply IH.
Qed.

(** The state after writing up to [Blocks] blocks into a new buffer. *)
Lemma write_all_new datas slots :
  length slots = Blocks →
  length datas ≤ Blocks →
  write_all Blocks datas (RingBuffer_new Blocks slots) =
  Some (tt, mkRingBuffer (Blocks - length datas) (length datas)
              (length datas mod Blocks) 0
              (datas ++ drop (length datas) slots)).
Proof.
  intros Hslots. induction datas as [|d datas IH] using rev_ind; intros Hlen.
  - simpl. unfold ret, RingBuffer_new.
    by rewrite Nat.sub_0_r, Nat.Div0.mod_0_l.
  - rewrite length_app in *. simpl in *.
    rewrite write_all_app, IH by lia. simpl. unfold bind, ret.
    rewrite write_block_unfold. simpl.
    destruct (Blocks - length datas) as [|n] eqn:Hn; [lia|].
    rewrite (Nat.mod_small (length datas)) by lia.
    destruct (lookup_lt_is_Some_2 slots (length datas)) as [x Hx]; [lia|].
    rewrite insert_app_r_alt, Nat.sub_diag by lia.
    rewrite (drop_S _ _ _ Hx). simpl.
    rewrite <- app_assoc. simpl.
    repeat f_equal; lia.
Qed.

(** Reads between the read cursor and a write cursor ahead of it return
    the slots in between, in order. *)
Lemma read_all_between outs : ∀ rb,
  length (blocks_ rb) = Blocks →
  readIndex_ rb + length outs ≤ writeIndex_ rb →
  writeIndex_ rb < Blocks →
  length outs ≤ readSemaphore_ rb →
  ∃ rb',
    read_all Blocks outs rb =
    Some (pair true <$> take (length outs) (drop (readIndex_ rb) (blocks_ rb)),
          rb').
Proof.
  induction outs as [|out outs IH]; intros rb Hlen Hri Hwi Hrs.
  - exists rb. done.
  - simpl in *. unfold bind at 1. rewrite read_block_unfold.
    destruct (readSemaphore_ rb) as [|n] eqn:Hn; [lia|].
    rewrite decide_False by lia.
    set (rb1 := mkRingBuffer _ _ _ _ _).
    destruct (IH rb1) as [rb' Hread]; simpl; try lia.
    { rewrite Nat.mod_small; lia. }
    exists rb'. unfold bind, ret. rewrite Hread. simpl.
    rewrite Nat.mod_small by lia.
    rewrite (drop_S _ (blocks_ rb !!! readIndex_ rb) (readIndex_ rb)).
    + simpl. by rewrite Nat.add_1_r.
    + apply list_lookup_lookup_total_lt. lia.
Qed.

(** Fewer than [Blocks] block writes on a new buffer, then as many block
    reads: every read returns [true] and the blocks come back in the
    order they were written. *)
Lemma fifo_below_capacity datas slots outs :
  length slots = Blocks →
  length datas < Blocks →
  length outs = length datas →
  ∃ rb rb',
    write_all Blocks datas (RingBuffer_new Blocks slots) = Some (tt, rb) ∧
    read_all Blocks outs rb = Some (pair true <$> datas, rb').
Proof.
  intros Hslots Hlt Houts.
  eexists. rewrite write_all_new by lia.
  edestruct (read_all_between outs) as [rb' Hread]; last first.
  { exists rb'. split; [done|]. rewrite Hread. simpl.
    by rewrite drop_0, Houts, take_app_length. }
  all: simpl; rewrite ?length_app, ?length_drop, ?Nat.mod_small; lia.
Qed.

(** While the cursors are equal every [read(block)] that is admitted
    returns [false] and leaves the caller's block alone. *)
Lemma read_all_equal_cursors outs : ∀ rb,
  readIndex_ rb = writeIndex_ rb →
  length outs ≤ readSemaphore_ rb →
  ∃ rb', read_all Blocks outs rb = Some (pair false <$> outs, rb').
Proof.
  induction outs as [|out outs IH]; intros rb Heq Hrs.
  - by exists rb.
  - simpl in *. unfold bind at 1. rewrite read_block_unfold.
    destruct (readSemaphore_ rb) as [|n] eqn:Hn; [lia|].
    rewrite decide_True by done.
    set (rb1 := mkRingBuffer _ _ _ _ _).
    destruct (IH rb1) as [rb' Hread]; simpl; [done | lia |].
    exists rb'. unfold bind, ret. by rewrite Hread.
Qed.

(** [Blocks] block writes on a new buffer, then block reads: none of the
    reads returns a block. *)
Lemma reads_fail_on_full_buffer datas slots outs :
  length slots = Blocks →
  length datas = Blocks →
  length outs ≤ Blocks →
  ∃ rb rb',
    write_all Blocks datas (RingBuffer_new Blocks slots) = Some (tt, rb) ∧
    read_all Blocks outs rb = Some (pair false <$> outs, rb').
Proof.
  intros Hslots Hdatas Houts.
  eexists. rewrite write_all_new by lia.
  edestruct (read_all_equal_cursors outs) as [rb' Hread]; last first.
  { exists rb'. split; [done|]. exact Hread. }
  all: simpl; rewrite ?Hdatas, ?Nat.Div0.mod_same; lia.
Qed.

(** ** What a collection read appends *)

Lemma items_copy_back_inserter `{Growable T C} (src : list T) (collection : C) :
  items (copy_back_inserter src collection) = items collection ++ src.
Proof.
  unfold copy_back_inserter. revert collection.
  induction src as [|x src IH]; intros collection; simpl.
  - by rewrite app_nil_r.
  - by rewrite IH, items_push_back, <- app_assoc.
Qed.

(** A collection read that returns [true] appends the whole [data_] array
    of the slot at the read cursor, [BlockSize] elements, whatever the
    slot's [size_]. *)
Lemma read_collection_appends_data `{Growable T C} (collection c' : C) rb rb' :
  read_collection collection rb = Some ((true, c'), rb') →
  items c' = items collection ++ data_ (blocks_ rb !!! readIndex_ rb).
Proof.
  rewrite read_collection_unfold. intros Hread.
  apply func_read_result_true in Hread as (-> & _).
  unfold append_block. by rewrite items_copy_back_inserter, items_reserve.
Qed.

(** ** Writes and block reads never overwrite unseen data *)

Lemma add_mod_cases (r a : nat) :
  r < Blocks → a ≤ Blocks →
  (r + a) mod Blocks = if decide (r + a < Blocks) then r + a else r + a - Blocks.
Proof.
  intros Hr Ha. case_decide as Hlt.
  - by apply Nat.mod_small.
  - replace (r + a) with ((r + a - Blocks) + 1 * Blocks) at 1 by lia.
    rewrite Nat.Div0.mod_add. apply Nat.mod_small. lia.
Qed.

Lemma add_mod_inj (r a b : nat) :
  r < Blocks → a < Blocks → b < Blocks →
  (r + a) mod Blocks = (r + b) mod Blocks → a = b.
Proof.
  intros Hr Ha Hb. rewrite !add_mod_cases by lia.
  repeat case_decide; lia.
Qed.

(** What each call does to the counters and the cursors. *)
Lemma exec_effect c rb r rb' :
  exec Blocks BlockSize c rb = Some (r, rb') →
  if is_write c then
    writeSemaphore_ rb = S (writeSemaphore_ rb') ∧
    writeIndex_ rb' = (writeIndex_ rb + 1) mod Blocks ∧
    readIndex_ rb' = readIndex_ rb
  else if succeeded r then
    writeSemaphore_ rb' = S (writeSemaphore_ rb) ∧
    writeIndex_ rb' = writeIndex_ rb ∧
    writeIndex_ rb ≠ readIndex_ rb ∧
    readIndex_ rb' =
      (if is_func_read c then readIndex_ rb else (readIndex_ rb + 1) mod Blocks)
  else
    writeSemaphore_ rb' = writeSemaphore_ rb ∧
    writeIndex_ rb' = writeIndex_ rb ∧
    readIndex_ rb' = readIndex_ rb.
Proof. intros Hexec. destruct c; split_call; done. Qed.

Lemma marks_inv_new (slots : list (@block T)) :
  0 < Blocks →
  marks_inv Blocks (RingBuffer_new Blocks slots) (replicate Blocks false).
Proof.
  intros Hpos. unfold marks_inv. simpl.
  rewrite length_replicate, Nat.sub_diag, Nat.Div0.mod_0_l.
  split_and!; [done..|]. intros j Hj.
  rewrite lookup_total_replicate_2 by (apply Nat.mod_upper_bound; lia).
  symmetry. apply bool_decide_eq_false. lia.
Qed.

Lemma marks_inv_step c rb r rb' unread :
  0 < Blocks →
  is_func_read c = false →
  marks_inv Blocks rb unread →
  exec Blocks BlockSize c rb = Some (r, rb') →
  overwrites_unread c rb unread = false ∧
  marks_inv Blocks rb' (mark c rb r unread).
Proof.
  intros Hpos Hc (Hlen & Hri & Hws & Hwi & Hmarks) Hexec.
  apply exec_effect in Hexec. unfold overwrites_unread, mark, marks_inv.
  rewrite Hc in Hexec.
  set (f := Blocks - writeSemaphore_ rb) in *.
  destruct (is_write c); [|destruct (succeeded r)]; simpl.
  - (* a write fills the slot just behind the marked ones *)
    destruct Hexec as (Hws' & Hwi' & Hri').
    assert (f < Blocks) as Hf by lia.
    assert (writeIndex_ rb < Blocks) as Hwilt.
    { rewrite Hwi. apply Nat.mod_upper_bound. lia. }
    split.
    { rewrite Hwi, (Hmarks f Hf). apply bool_decide_eq_false. lia. }
    rewrite length_insert, Hri', Hwi'.
    replace (Blocks - writeSemaphore_ rb') with (f + 1) by lia.
    split_and!; [done | done | lia | |].
    + rewrite Hwi, Nat.Div0.add_mod_idemp_l. f_equal. lia.
    + intros j Hj. destruct (decide (j = f)) as [->|Hne].
      * rewrite <- Hwi, list_lookup_total_insert_eq by lia.
        symmetry. apply bool_decide_eq_true. lia.
      * rewrite list_lookup_total_insert_ne.
        { rewrite (Hmarks j Hj). apply bool_decide_ext. lia. }
        rewrite Hwi. intros Heq. apply add_mod_inj in Heq; lia.
  - (* a block read that returns [true] clears the first marked slot *)
    split; [done|]. destruct Hexec as (Hws' & Hwi' & Hne & Hri').
    assert (0 < f < Blocks) as Hf.
    { rewrite Hwi, add_mod_cases in Hne by lia. case_decide; lia. }
    rewrite length_insert, Hri', Hwi'.
    replace (Blocks - writeSemaphore_ rb') with (f - 1) by lia.
    split_and!; [done | by apply Nat.mod_upper_bound; lia | lia | |].
    + rewrite Hwi, Nat.Div0.add_mod_idemp_l. f_equal. lia.
    + intros j Hj. rewrite Nat.Div0.add_mod_idemp_l.
      replace (readIndex_ rb + 1 + j) with (readIndex_ rb + (j + 1)) by lia.
      destruct (decide (j + 1 = Blocks)) as [Hlast|Hnot].
      * rewrite Hlast, add_mod_cases, decide_False by lia.
        replace (readIndex_ rb + Blocks - Blocks) with (readIndex_ rb) by lia.
        rewrite list_lookup_total_insert_eq by lia.
        symmetry. apply bool_decide_eq_false. lia.
      * rewrite list_lookup_total_insert_ne.
        { rewrite (Hmarks (j + 1)) by lia. apply bool_decide_ext. lia. }
        intros Heq.
        rewrite <- (Nat.mod_small (readIndex_ rb) Blocks) in Heq at 1 by done.
        rewrite <- (Nat.add_0_r (readIndex_ rb)) in Heq at 1.
        apply add_mod_inj in Heq; lia.
  - (* a read that returns [false] changes neither marks nor cursors *)
    split; [done|]. destruct Hexec as (Hws' & Hwi' & Hri').
    rewrite Hws', Hwi', Hri'. done.
Qed.

Lemma marks_inv_run calls : ∀ rb unread res,
  0 < Blocks →
  Forall (λ c, is_func_read c = false) calls →
  marks_inv Blocks rb unread →
  run_marked Blocks BlockSize calls rb unread = Some res →
  res.1.1 = false.
Proof.
  induction calls as [|c calls IH]; intros rb unread res Hpos Hcalls Hinv Hrun.
  - simpl in Hrun. by simplify_eq.
  - apply Forall_cons in Hcalls as [Hc Hcalls]. simpl in Hrun.
    destruct (exec Blocks BlockSize c rb) as [[r rb1]|] eqn:Hexec; [|done].
    destruct (marks_inv_step _ _ _ _ _ Hpos Hc Hinv Hexec) as [Hgood Hinv1].
    destruct (run_marked _ _ calls rb1 _) as [[[bad rb2] unread2]|] eqn:Hrest;
      [|done].
    simplify_eq. simpl. rewrite Hgood. simpl.
    by apply (IH _ _ _ Hpos Hcalls Hinv1 Hrest).
Qed.

(** On a new buffer, a run of writes and block reads, of any length and in
    any order, never has a write land on a slot whose content no reader has
    seen. *)
Lemma writes_and_block_reads_never_overwrite calls (slots : list (@block T)) res :
  0 < Blocks →
  Forall (λ c, is_func_read c = false) calls →
  run_marked Blocks BlockSize calls (RingBuffer_new Blocks slots)
    (replicate Blocks false) = Some res →
  res.1.1 = false.
Proof.
  intros Hpos Hcalls. apply marks_inv_run; [done..|]. by apply marks_inv_new.
Qed.

(** ** Reachable states *)

(** In every state a buffer with at least one slot can reach, the slot
    array has [Blocks] slots and both cursors index one of them. *)
Lemma reachable_cursors_in_range rb :
  0 < Blocks →
  reachable Blocks BlockSize rb →
  length (blocks_ rb) = Blocks ∧
  writeIndex_ rb < Blocks ∧
  readIndex_ rb < Blocks.
Proof. intros Hpos Hreach. by apply reachable_wf. Qed.

Lemma exec_counter_sum c rb r rb' :
  exec Blocks BlockSize c rb = Some (r, rb') →
  writeSemaphore_ rb' + readSemaphore_ rb' ≤
  writeSemaphore_ rb + readSemaphore_ rb.
Proof. intros Hexec. destruct c; split_call; lia. Qed.

(** The two counters never add up to more than [Blocks], so no
    [release()] takes a semaphore past the maximum it was declared with. *)
Lemma reachable_counters_bounded rb :
  reachable Blocks BlockSize rb →
  writeSemaphore_ rb + readSemaphore_ rb ≤ Blocks.
Proof.
  induction 1 as [slots Hlen | c rb r rb' _ IH Hexec].
  - simpl. lia.
  - apply exec_counter_sum in Hexec. lia.
Qed.

(** ** Calls that fail or block *)

(** A read of any kind that returns [false] hands the caller's arguments
    back as they were passed and leaves cursors, slots and write counter
    alone; at most a unit of the read counter is gone. *)
Lemma failed_read_frame c rb r rb' :
  exec Blocks BlockSize c rb = Some (r, rb') →
  succeeded r = false →
  r = untouched c ∧
  writeIndex_ rb' = writeIndex_ rb ∧
  readIndex_ rb' = readIndex_ rb ∧
  blocks_ rb' = blocks_ rb ∧
  writeSemaphore_ rb' = writeSemaphore_ rb ∧
  readSemaphore_ rb' ≤ readSemaphore_ rb.
Proof.
  intros Hexec Hok.
  destruct c; split_call; split_and!; done || lia.
Qed.


(** With a unit of the read counter available the timeout plays no part: a
    timed read is the read without timeout. *)
Lemma timed_read_agrees_with_blocking rb out (v : @vector T) ptr size timeout :
  readSemaphore_ rb ≠ 0 →
  exec Blocks BlockSize (ReadFor out timeout) rb =
    exec Blocks BlockSize (Read out) rb ∧
  exec Blocks BlockSize (ReadForCollection v timeout) rb =
    exec Blocks BlockSize (ReadCollection v) rb ∧
  exec Blocks BlockSize (ReadBytesFor ptr size timeout) rb =
    exec Blocks BlockSize (ReadBytes ptr size) rb.
Proof.
  intros Hrs. simpl. unfold bind.
  rewrite read_for_block_unfold, read_block_unfold.
  rewrite read_for_collection_unfold, read_collection_unfold.
  rewrite read_bytes_for_unfold, read_bytes_unfold.
  unfold func_read_result.
  by destruct (readSemaphore_ rb).
Qed.

(** ** The full buffer *)

Lemma stuck_step c rb r rb' :
  writeSemaphore_ rb = 0 →
  writeIndex_ rb = readIndex_ rb →
  exec Blocks BlockSize c rb = Some (r, rb') →
  succeeded r = false ∧
  writeSemaphore_ rb' = 0 ∧
  writeIndex_ rb' = readIndex_ rb' ∧
  blocks_ rb' = blocks_ rb.
Proof.
  intros Hws Heq Hexec.
  destruct c; split_call; split_and!; done || lia.
Qed.

Lemma stuck_run calls : ∀ rb rs rb',
  writeSemaphore_ rb = 0 →
  writeIndex_ rb = readIndex_ rb →
  run Blocks BlockSize calls rb = Some (rs, rb') →
  Forall (λ r, succeeded r = false) rs ∧ blocks_ rb' = blocks_ rb.
Proof.
  induction calls as [|c calls IH]; intros rb rs rb' Hws Heq Hrun.
  - simpl in Hrun. unfold ret in Hrun. by simplify_eq.
  - simpl in Hrun. unfold bind, ret in Hrun.
    destruct (exec Blocks BlockSize c rb) as [[r rb1]|] eqn:Hexec; [|done].
    destruct (run Blocks BlockSize calls rb1) as [[rs1 rb2]|] eqn:Hrest; [|done].
    simplify_eq.
    destruct (stuck_step _ _ _ _ Hws Heq Hexec) as (Hr & Hws1 & Heq1 & Hbs1).
    destruct (IH _ _ _ Hws1 Heq1 Hrest) as [Hrs Hbs2].
    split; [by constructor | congruence].
Qed.

(** Once [Blocks] writes have filled a new buffer, nothing gets through any
    more: whatever calls follow, those that return are reads that return
    [false], and the slots stay as the writes left them. *)
Lemma full_buffer_is_stuck writes slots :
  Forall (λ c, is_write c = true) writes →
  length writes = Blocks →
  ∃ rs0 rb0,
    run Blocks BlockSize writes (RingBuffer_new Blocks slots) = Some (rs0, rb0) ∧
    ∀ calls rs rb,
      run Blocks BlockSize calls rb0 = Some (rs, rb) →
      Forall (λ r, succeeded r = false) rs ∧ blocks_ rb = blocks_ rb0.
Proof.
  intros Hw Hlen.
  destruct (run_writes writes (RingBuffer_new Blocks slots) Hw)
    as (rs0 & rb0 & Hrun & Hws & _ & Hwi & Hri & _).
  { simpl. lia. }
  { simpl. apply Nat.Div0.mod_0_l. }
  exists rs0, rb0. split; [done|]. intros calls rs rb Hcalls.
  simpl in *. eapply stuck_run; [| |done].
  - lia.
  - rewrite Hwi, Hri, Hlen. apply Nat.Div0.mod_same.
Qed.

(** ** First in, first out *)

Lemma queue_inv_new slots :
  0 < Blocks → length slots = Blocks →
  queue_inv Blocks (RingBuffer_new Blocks slots) [].
Proof.
  intros Hpos Hlen. unfold queue_inv. simpl.
  rewrite Nat.Div0.mod_0_l. split_and!; [done..|]. intros j Hj. lia.
Qed.

(** A block write appends to the queue the buffer holds. *)
Lemma queue_inv_write data rb r rb' queue :
  0 < Blocks →
  queue_inv Blocks rb queue →
  exec Blocks BlockSize (Write data) rb = Some (r, rb') →
  queue_inv Blocks rb' (queue ++ [data]).
Proof.
  intros Hpos Hinv Hexec.
  simpl in Hexec. unfold bind, ret in Hexec.
  rewrite write_block_unfold in Hexec.
  destruct (writeSemaphore_ rb) as [|n] eqn:Hn; [done|]. simplify_eq.
  destruct Hinv as (Hlen & Hri & Hq & Hwi & Hslots). rewrite Hn in Hq.
  assert (writeIndex_ rb < Blocks) as Hwilt.
  { rewrite Hwi. apply Nat.mod_upper_bound. lia. }
  unfold queue_inv. simpl. rewrite length_insert, length_app. simpl.
  split_and!; [done | done | lia | |].
  - rewrite Hwi, Nat.Div0.add_mod_idemp_l. f_equal. lia.
  - intros j Hj. destruct (decide (j = length queue)) as [->|Hne].
    + rewrite <- Hwi, list_lookup_total_insert_eq by lia.
      by rewrite lookup_app_r, Nat.sub_diag by lia.
    + rewrite list_lookup_total_insert_ne.
      { rewrite lookup_app_l by lia. apply Hslots. lia. }
      rewrite Hwi. intros Heq. apply add_mod_inj in Heq; lia.
Qed.

(** A block read either returns [false] and leaves the queue, or returns
    the oldest block and removes it. *)
Lemma queue_inv_read c rb r rb' queue :
  0 < Blocks →
  is_block_call c = true → is_write c = false →
  queue_inv Blocks rb queue →
  exec Blocks BlockSize c rb = Some (r, rb') →
  if succeeded r then
    ∃ oldest queue',
      queue = oldest :: queue' ∧ r = ReadReply true oldest ∧
      queue_inv Blocks rb' queue'
  else queue_inv Blocks rb' queue.
Proof.
  intros Hpos Hc Hw Hinv Hexec.
  assert ((∃ out n,
            readSemaphore_ rb = S n ∧
            if decide (readIndex_ rb = writeIndex_ rb)
            then r = ReadReply false out ∧
                 rb' = mkRingBuffer (writeSemaphore_ rb) n (writeIndex_ rb)
                         (readIndex_ rb) (blocks_ rb)
            else r = ReadReply true (blocks_ rb !!! readIndex_ rb) ∧
                 rb' = mkRingBuffer (S (writeSemaphore_ rb)) n (writeIndex_ rb)
                         ((readIndex_ rb + 1) mod Blocks) (blocks_ rb)) ∨
          (succeeded r = false ∧ rb' = rb)) as Hcases.
  { destruct c as [| |out|out timeout| | | |]; try done;
      simpl in Hexec; unfold bind, ret in Hexec;
      [rewrite read_block_unfold in Hexec
      |rewrite read_for_block_unfold in Hexec];
      destruct (readSemaphore_ rb) as [|n] eqn:Hn; simplify_eq;
      try (right; done);
      left; exists out, n; (split; [done|]);
      destruct (decide (readIndex_ rb = writeIndex_ rb)); by simplify_eq. }
  destruct Hcases as [(out & n & Hn & Hread)|[-> ->]]; [|done].
  destruct Hinv as (Hlen & Hri & Hq & Hwi & Hslots).
  destruct (decide (readIndex_ rb = writeIndex_ rb)) as [Heq|Hne];
    destruct Hread as [-> ->]; simpl; [done|].
  assert (0 < length queue < Blocks) as Hqlen.
  { rewrite Hwi, add_mod_cases in Hne by lia. case_decide; lia. }
  destruct queue as [|oldest queue']; simpl in *; [lia|].
  exists oldest, queue'. split; [done|].
  assert (oldest = blocks_ rb !!! readIndex_ rb) as ->.
  { specialize (Hslots 0 ltac:(lia)). simpl in Hslots.
    rewrite Nat.add_0_r, Nat.mod_small in Hslots by done. by simplify_eq. }
  split; [done|]. unfold queue_inv. simpl.
  split_and!; [done | by apply Nat.mod_upper_bound; lia | lia | |].
  - rewrite Hwi, Nat.Div0.add_mod_idemp_l. f_equal. lia.
  - intros j Hj. rewrite Nat.Div0.add_mod_idemp_l.
    replace (readIndex_ rb + 1 + j) with (readIndex_ rb + S j) by lia.
    apply (Hslots (S j)). lia.
Qed.

Lemma queue_inv_run calls : ∀ rb rs rb' queue,
  0 < Blocks →
  Forall (λ c, is_block_call c = true) calls →
  queue_inv Blocks rb queue →
  run Blocks BlockSize calls rb = Some (rs, rb') →
  fifo_replies calls rs queue.
Proof.
  induction calls as [|c calls IH]; intros rb rs rb' queue Hpos Hcalls Hinv Hrun.
  - simpl in Hrun. unfold ret in Hrun. by simplify_eq.
  - apply Forall_cons in Hcalls as [Hc Hcalls].
    simpl in Hrun. unfold bind, ret in Hrun.
    destruct (exec Blocks BlockSize c rb) as [[r rb1]|] eqn:Hexec; [|done].
    destruct (run Blocks BlockSize calls rb1) as [[rs1 rb2]|] eqn:Hrest; [|done].
    simplify_eq.
    destruct (is_write c) eqn:Hw.
    + destruct c; try done. simpl.
      eapply IH; [done | done | | done]. by eapply queue_inv_write.
    + pose proof (queue_inv_read _ _ _ _ _ Hpos Hc Hw Hinv Hexec) as Hread.
      assert (fifo_replies (c :: calls) (r :: rs1) queue =
              if succeeded r then
                match queue with
                | [] => False
                | oldest :: queue' =>
                    r = ReadReply true oldest ∧ fifo_replies calls rs1 queue'
                end
              else fifo_replies calls rs1 queue) as -> by (by destruct c).
      destruct (succeeded r).
      * destruct Hread as (oldest & queue' & -> & -> & Hinv').
        split; [done|]. by eapply IH.
      * by eapply IH.
Qed.

(** Block writes and block reads on a new buffer, in any order and number:
    every read that returns [true] returns the oldest block written and not
    yet returned, so the blocks come out in the order they went in. *)
Lemma block_reads_are_fifo calls slots rs rb :
  0 < Blocks →
  length slots = Blocks →
  Forall (λ c, is_block_call c = true) calls →
  run Blocks BlockSize calls (RingBuffer_new Blocks slots) = Some (rs, rb) →
  fifo_replies calls rs [].
Proof.
  intros Hpos Hlen Hcalls Hrun.
  eapply queue_inv_run; [done | done | | done]. by apply queue_inv_new.
Qed.

(** ** Round trips *)

(** [write(collection)] into a buffer with nothing pending, then
    [read(block)]: the block that comes back carries
    [min(BlockSize, length)] as its count and the collection's first
    [BlockSize] elements as its valid elements. *)
Lemma write_collection_read_block_round_trip collection out rb m :
  1 < Blocks →
  writeSemaphore_ rb = S m →
  writeIndex_ rb = readIndex_ rb →
  writeIndex_ rb < Blocks →
  length (blocks_ rb) = Blocks →
  block_wf BlockSize (blocks_ rb !!! writeIndex_ rb) →
  ∃ rb1 b rb2,
    write_collection Blocks BlockSize collection rb =
      Some (BlockSize `min` length collection, rb1) ∧
    read_block Blocks out rb1 = Some ((true, b), rb2) ∧
    size_ b = BlockSize `min` length collection ∧
    take (size_ b) (data_ b) = take BlockSize collection ∧
    block_wf BlockSize b.
Proof.
  intros Hpos Hws Heq Hwi Hlen Hwf. unfold block_wf in *.
  rewrite write_collection_unfold, Hws. cbv zeta.
  set (n := BlockSize `min` length collection).
  eexists _, _, _. split; [done|].
  rewrite read_block_unfold. simpl.
  assert ((writeIndex_ rb + 1) mod Blocks ≠ writeIndex_ rb) as Hnext.
  { rewrite add_mod_cases by lia. case_decide; lia. }
  rewrite decide_False by congruence.
  split; [done|]. rewrite <- Heq.
  rewrite list_lookup_total_insert_eq by lia. simpl.
  destruct (std_copy_take_drop (take n collection)
              (data_ (blocks_ rb !!! writeIndex_ rb)) n) as (Ht & _ & Hl).
  { rewrite length_take. lia. }
  { lia. }
  split_and!; [done| |congruence].
  rewrite Ht. unfold n.
  by rewrite <- take_take, (take_ge collection (length collection)).
Qed.

(** ** Byte reads *)

(** A byte read that returns [true] reports [min(size, size_)] as the number
    of bytes copied, puts that many bytes of the slot at the read cursor at
    the front of the caller's memory and leaves the rest of it alone. *)
Lemma read_bytes_copies_prefix ptr size rb ptr' size' rb' :
  read_bytes ptr size rb = Some ((true, (ptr', size')), rb') →
  size ≤ length ptr →
  size_ (blocks_ rb !!! readIndex_ rb) ≤
    length (data_ (blocks_ rb !!! readIndex_ rb)) →
  size' = size `min` size_ (blocks_ rb !!! readIndex_ rb) ∧
  take size' ptr' = take size' (data_ (blocks_ rb !!! readIndex_ rb)) ∧
  drop size' ptr' = drop size' ptr ∧
  length ptr' = length ptr.
Proof.
  rewrite read_bytes_unfold. intros Hread Hsize Hslot.
  apply func_read_result_true in Hread as (Hcopy & _).
  unfold copy_bytes in Hcopy. simplify_eq.
  set (slot := blocks_ rb !!! readIndex_ rb) in *.
  set (n := size `min` size_ slot).
  destruct (std_copy_take_drop (take n (data_ slot)) ptr n) as (Ht & Hd & Hl).
  { rewrite length_take. lia. }
  { lia. }
  split_and!; [done | exact Ht | exact Hd | exact Hl].
Qed.

(** ** What a collection read appends *)

(** A collection read of either kind that returns [true] appends the whole
    [data_] array of the slot at the read cursor, [BlockSize] elements
    whatever the slot's [size_], after the elements the sequence had. *)
Lemma collection_read_appends_data_array `{Growable T C}
    (collection c' : C) timeout rb rb' :
  read_collection collection rb = Some ((true, c'), rb') ∨
  read_for_collection collection timeout rb = Some ((true, c'), rb') →
  block_wf BlockSize (blocks_ rb !!! readIndex_ rb) →
  items c' = items collection ++ data_ (blocks_ rb !!! readIndex_ rb) ∧
  length (items c') = length (items collection) + BlockSize.
Proof.
  rewrite read_collection_unfold, read_for_collection_unfold.
  intros Hread Hwf. unfold block_wf in Hwf.
  assert (c' = append_block (blocks_ rb !!! readIndex_ rb) collection) as ->.
  { destruct Hread as [Hread|Hread];
      by apply func_read_result_true in Hread as (-> & _). }
  unfold append_block. rewrite items_copy_back_inserter, items_reserve.
  split; [done|]. by rewrite length_app, Hwf.
Qed.

(** ** A buffer of one slot *)

(** With [Blocks = 1] the cursors can only be 0 and 0, so no read of any
    kind ever returns [true]. *)
Lemma single_slot_never_delivers c rb r rb' :
  Blocks = 1 →
  reachable Blocks BlockSize rb →
  is_write c = false →
  exec Blocks BlockSize c rb = Some (r, rb') →
  succeeded r = false.
Proof.
  intros Hone Hreach Hc Hexec.
  destruct (reachable_wf rb) as (_ & Hwi & Hri); [lia | done |].
  apply exec_effect in Hexec. rewrite Hc in Hexec.
  destruct (succeeded r); [|done].
  destruct Hexec as (_ & _ & Hne & _). lia.
Qed.

(** ** Slot arrays *)

(** The [data_] arrays of the slots keep their [BlockSize] elements through
    every call: a collection write overwrites a prefix in place, a block
    write stores the caller's array. *)
Lemma slots_keep_block_size c rb r rb' :
  Forall (block_wf BlockSize) (blocks_ rb) →
  (∀ data, c = Write data → block_wf BlockSize data) →
  exec Blocks BlockSize c rb = Some (r, rb') →
  Forall (block_wf BlockSize) (blocks_ rb').
Proof.
  intros Hslots Hdata Hexec.
  destruct (decide (is_write c = true)) as [Hw|Hw].
  - destruct c as [data|collection| | | | | |]; try done;
      simpl in Hexec; unfold bind, ret in Hexec.
    + rewrite write_block_unfold in Hexec.
      destruct (writeSemaphore_ rb); simplify_eq. simpl.
      apply Forall_insert; [done|]. by apply Hdata.
    + rewrite write_collection_unfold in Hexec. cbv zeta in Hexec.
      destruct (writeSemaphore_ rb); simplify_eq. simpl.
      destruct (decide (writeIndex_ rb < length (blocks_ rb))) as [Hlt|Hge].
      * apply Forall_insert; [done|]. unfold block_wf. simpl.
        assert (block_wf BlockSize (blocks_ rb !!! writeIndex_ rb)) as Hold.
        { rewrite Forall_lookup in Hslots.
          apply (Hslots (writeIndex_ rb)).
          by apply list_lookup_lookup_total_lt. }
        unfold block_wf in Hold.
        set (n := BlockSize `min` length collection).
        destruct (std_copy_take_drop (take n collection)
                    (data_ (blocks_ rb !!! writeIndex_ rb)) n) as (_ & _ & Hl).
        { rewrite length_take. lia. }
        { lia. }
        congruence.
      * rewrite list_insert_ge by lia. done.
  - assert (blocks_ rb' = blocks_ rb) as ->; [|done].
    destruct c; try done; split_call; done.
Qed.

(** ** What a call leaves alone *)

(** A block write stores the caller's block in the slot at the write cursor
    and changes no other slot, nor the read cursor. *)
Lemma write_block_stores data rb r rb' :
  exec Blocks BlockSize (Write data) rb = Some (r, rb') →
  writeIndex_ rb < length (blocks_ rb) →
  blocks_ rb' !! writeIndex_ rb = Some data ∧
  (∀ i, i ≠ writeIndex_ rb → blocks_ rb' !! i = blocks_ rb !! i) ∧
  length (blocks_ rb') = length (blocks_ rb) ∧
  readIndex_ rb' = readIndex_ rb.
Proof.
  intros Hexec Hwi. simpl in Hexec. unfold bind, ret in Hexec.
  rewrite write_block_unfold in Hexec.
  destruct (writeSemaphore_ rb); simplify_eq. simpl.
  split_and!; [|intros i Hi|..].
  - by apply list_lookup_insert_eq.
  - by apply list_lookup_insert_ne.
  - apply length_insert.
  - done.
Qed.

(** No read, whatever it returns, changes a slot or the write cursor. *)
Lemma reads_leave_slots c rb r rb' :
  is_write c = false →
  exec Blocks BlockSize c rb = Some (r, rb') →
  blocks_ rb' = blocks_ rb ∧ writeIndex_ rb' = writeIndex_ rb.
Proof. intros Hc Hexec. destruct c; try done; split_call; done. Qed.

(** [write(collection)] into a buffer with nothing pending, then
    [read(collection)]: the sequence grows by the collection's first
    [BlockSize] elements followed by whatever the slot held behind them
    before the write, so a collection shorter than a slot comes back with
    stale elements after it. *)
Lemma write_collection_read_collection_round_trip `{Growable T C}
    collection (dst : C) rb m :
  1 < Blocks →
  writeSemaphore_ rb = S m →
  writeIndex_ rb = readIndex_ rb →
  writeIndex_ rb < Blocks →
  length (blocks_ rb) = Blocks →
  ∃ rb1 dst' rb2,
    write_collection Blocks BlockSize collection rb =
      Some (BlockSize `min` length collection, rb1) ∧
    read_collection dst rb1 = Some ((true, dst'), rb2) ∧
    items dst' =
      items dst ++ take BlockSize collection ++
      drop (BlockSize `min` length collection)
        (data_ (blocks_ rb !!! writeIndex_ rb)).
Proof.
  intros Hpos Hws Heq Hwi Hlen.
  rewrite write_collection_unfold, Hws. cbv zeta.
  set (n := BlockSize `min` length collection).
  eexists _, _, _. split; [done|].
  rewrite read_collection_unfold. unfold func_read_result. simpl.
  assert ((writeIndex_ rb + 1) mod Blocks ≠ readIndex_ rb) as Hnext.
  { rewrite <- Heq, add_mod_cases by lia. case_decide; lia. }
  rewrite decide_False by done.
  split; [done|]. rewrite <- Heq.
  rewrite list_lookup_total_insert_eq by lia.
  unfold append_block. rewrite items_copy_back_inserter, items_reserve. simpl.
  unfold std_copy. rewrite length_take.
  replace (n `min` length collection) with n by lia.
  unfold n at 1.
  by rewrite <- take_take, (take_ge collection (length collection)).
Qed.

End properties.

(** * The properties on the two-slot buffer *)

Section scenario.

Import Scenario.

Example fresh_write_b123 :
  write_block 2 b123 fresh = Some (tt, one_written).
Proof. vm_compute. reflexivity. Qed.

Example one_written_write_45 :
  write_collection 2 3 [4; 5] one_written = Some (2, full).
Proof. vm_compute. reflexivity. Qed.

Example two_of_three_written :
  write_all 3 [b123; b45] (RingBuffer_new 3 (value_initialised 3 3 0)) =
  Some (tt, two_of_three).
Proof. vm_compute. reflexivity. Qed.

(** C1. On the two-slot buffer, after [write({4, 5})] the slot at the read
    cursor has [size_ = 2], and [read(collection)] into an empty vector
    returns [true] with three elements appended, the whole slot, not
    two. *)
Theorem collection_read_appends_whole_slot :
  write_collection 2 3 [4; 5] fresh = Some (2, two_elements_written) ∧
  size_ (blocks_ two_elements_written !!! readIndex_ two_elements_written) = 2 ∧
  read_collection no_items two_elements_written =
    Some ((true, Vector [4; 5; 0] 4), mkRingBuffer 2 0 1 0 [b45; b000]).
Proof. split_and!; vm_compute; reflexivity. Qed.

(** C2. On the two-slot buffer, [read(collection)] after one write returns
    [true] and the read cursor is still 0, not [(0 + 1) % 2 = 1]. *)
Theorem collection_read_keeps_read_cursor :
  ∃ rb',
    exec 2 3 (ReadCollection no_items) one_written =
      Some (ReadCollectionReply true (Vector [1; 2; 3] 3), rb') ∧
    readIndex_ one_written = 0 ∧
    (readIndex_ one_written + 1) mod 2 = 1 ∧
    readIndex_ rb' = 0.
Proof.
  exists (mkRingBuffer 2 0 1 0 [b123; b000]).
  split_and!; vm_compute; reflexivity.
Qed.

(** C6. On the two-slot buffer, two block writes followed by two block
    reads: both reads return [false] and leave the caller's block as it
    was; neither written block comes back. *)
Theorem full_buffer_reads_fail :
  write_all 2 [b123; b45] fresh = Some (tt, full) ∧
  read_all 2 [out0; out0] full =
    Some ([(false, out0); (false, out0)], mkRingBuffer 0 0 0 0 [b123; b45]).
Proof. split; vm_compute; reflexivity. Qed.

(** C8. On the two-slot buffer, the six calls all return, the last write
    fills slot 1 while it holds [b2], and [b2] was handed to no reader:
    the two reads of the run returned the slots holding [b1] and [b3]. *)
Theorem unread_slot_overwritten :
  run_marked 2 3 overwriting_calls fresh [false; false] =
    Some (true, overwritten, [false; true]) ∧
  run 2 3 overwriting_calls fresh =
    Some ([Wrote; ReadCollectionReply true (Vector [1; 0; 0] 4); Wrote;
           Wrote; ReadReply true b3; Wrote], overwritten) ∧
  run 2 3 [Write b1; ReadCollection no_items; Write b2; Write b3; Read out0]
    fresh =
    Some ([Wrote; ReadCollectionReply true (Vector [1; 0; 0] 4); Wrote;
           Wrote; ReadReply true b3], mkRingBuffer 1 1 1 1 [b3; b2]).
Proof. split_and!; vm_compute; reflexivity. Qed.

Lemma read_block_recheck_failure_witness :
  (readSemaphore_ full = 2 ∧ readIndex_ full = writeIndex_ full) ∧
  ∃ rb',
    read_block 2 out0 full = Some ((false, out0), rb') ∧
    writeSemaphore_ rb' + readSemaphore_ rb' = 1.
Proof.
  split; [split; reflexivity|].
  destruct (read_block_recheck_failure 2 out0 full 1 eq_refl eq_refl)
    as (rb' & Hread & _ & _ & _ & _ & _ & Hsum).
  exists rb'. split; [exact Hread | apply Hsum; reflexivity].
Defined.

Lemma semaphore_sum_preserved_witness :
  (exec 2 3 (Read out0) one_written =
     Some (ReadReply true b123, mkRingBuffer 2 0 1 1 [b123; b000]) ∧
   succeeded (ReadReply true b123) = true ∧
   writeSemaphore_ one_written + readSemaphore_ one_written = 2) ∧
  writeSemaphore_ (mkRingBuffer 2 0 1 1 [b123; b000]) +
  readSemaphore_ (mkRingBuffer 2 0 1 1 [b123; b000]) = 2.
Proof.
  assert (Hexec : exec 2 3 (Read out0) one_written =
                  Some (ReadReply true b123, mkRingBuffer 2 0 1 1 [b123; b000]))
    by (vm_compute; reflexivity).
  split; [split_and!; [exact Hexec | reflexivity | reflexivity]|].
  apply (semaphore_sum_preserved 2 3 (Read out0) one_written _ _
           Hexec eq_refl).
  reflexivity.
Defined.

Lemma write_collection_truncates_witness :
  (writeSemaphore_ fresh = 2 ∧
   writeIndex_ fresh < length (blocks_ fresh) ∧
   block_wf 3 (blocks_ fresh !!! writeIndex_ fresh)) ∧
  ∃ rb',
    write_collection 2 3 [1; 2; 3; 4; 5] fresh = Some (3, rb') ∧
    data_ (blocks_ rb' !!! 0) = [1; 2; 3].
Proof.
  assert (Hwi : writeIndex_ fresh < length (blocks_ fresh)) by (simpl; lia).
  split; [split_and!; [reflexivity | exact Hwi | reflexivity]|].
  destruct (write_collection_truncates 2 3 [1; 2; 3; 4; 5] fresh 1
              eq_refl Hwi eq_refl)
    as (rb' & Hwrite & _ & _ & _ & _ & _ & _ & Hlong).
  exists rb'. split; [exact Hwrite|].
  apply Hlong. simpl. lia.
Defined.

Lemma is_empty_cannot_tell_full_witness :
  (Forall (λ c, is_write c = true) [Write b123; WriteCollection [4; 5]] ∧
   length [Write b123; WriteCollection [4; 5]] = 2) ∧
  is_empty fresh = true ∧
  ∃ rs rb,
    run 2 3 [Write b123; WriteCollection [4; 5]] fresh = Some (rs, rb) ∧
    readSemaphore_ rb = 2 ∧
    is_empty rb = true.
Proof.
  assert (Hw : Forall (λ c : @call nat, is_write c = true)
                 [Write b123; WriteCollection [4; 5]])
    by (repeat constructor).
  split; [split; [exact Hw | reflexivity]|].
  apply (is_empty_cannot_tell_full 2 3 _ (value_initialised 2 3 0) Hw eq_refl).
Defined.

Lemma timed_read_expiry_witness :
  (is_timed_read (ReadFor out0 1000) = true ∧ readSemaphore_ fresh = 0) ∧
  exec 2 3 (ReadFor out0 1000) fresh = Some (ReadReply false out0, fresh).
Proof.
  split; [split; reflexivity|].
  apply (timed_read_expiry 2 3 (ReadFor out0 1000) fresh eq_refl eq_refl).
Defined.

Lemma func_reads_do_not_consume_witness :
  let rb1 := mkRingBuffer 2 1 2 0 [b123; b45; b000] in
  let rb2 := mkRingBuffer 3 0 2 0 [b123; b45; b000] in
  (exec 3 3 (ReadCollection no_items) two_of_three =
     Some (ReadCollectionReply true (Vector [1; 2; 3] 3), rb1) ∧
   exec 3 3 (ReadForCollection no_items 1000) rb1 =
     Some (ReadCollectionReply true (Vector [1; 2; 3] 3), rb2)) ∧
  readIndex_ rb2 = readIndex_ two_of_three ∧
  blocks_ rb2 = blocks_ two_of_three.
Proof.
  intros rb1 rb2.
  assert (H1 : exec 3 3 (ReadCollection no_items) two_of_three =
               Some (ReadCollectionReply true (Vector [1; 2; 3] 3), rb1))
    by (vm_compute; reflexivity).
  assert (H2 : exec 3 3 (ReadForCollection no_items 1000) rb1 =
               Some (ReadCollectionReply true (Vector [1; 2; 3] 3), rb2))
    by (vm_compute; reflexivity).
  split; [split; [exact H1 | exact H2]|].
  destruct (func_reads_do_not_consume 3 3
              (ReadCollection no_items) (ReadForCollection no_items 1000)
              two_of_three _ _ _ _ eq_refl eq_refl H1 eq_refl H2 eq_refl)
    as (_ & (Hri & _ & Hbs & _) & _).
  split; [exact Hri | exact Hbs].
Defined.

End scenario.

(** * Further properties on the small buffers *)

Section scenario_reachable.

Import Scenario.

Lemma one_written_reachable : reachable 2 3 one_written.
Proof.
  apply (reachable_exec 2 3 (Write b123) fresh Wrote one_written).
  - apply reachable_new. reflexivity.
  - vm_compute. reflexivity.
Qed.

Lemma full_reachable : reachable 2 3 full.
Proof.
  apply (reachable_exec 2 3 (WriteCollection [4; 5]) one_written
           (WroteCollection 2) full).
  - apply one_written_reachable.
  - vm_compute. reflexivity.
Qed.

Lemma single_written_reachable : reachable 1 3 single_written.
Proof.
  apply (reachable_exec 1 3 (Write b123)
           (RingBuffer_new 1 (value_initialised 1 3 0)) Wrote single_written).
  - apply reachable_new. reflexivity.
  - vm_compute. reflexivity.
Qed.

Lemma reachable_cursors_in_range_witness :
  (0 < 2 ∧ reachable 2 3 full) ∧
  length (blocks_ full) = 2 ∧ writeIndex_ full < 2 ∧ readIndex_ full < 2.
Proof.
  assert (Hpos : 0 < 2) by lia.
  split; [split; [exact Hpos | exact full_reachable]|].
  apply (reachable_cursors_in_range 2 3 full Hpos full_reachable).
Defined.

Lemma reachable_counters_bounded_witness :
  reachable 2 3 full ∧
  writeSemaphore_ full + readSemaphore_ full ≤ 2.
Proof.
  split; [exact full_reachable|].
  apply (reachable_counters_bounded 2 3 full full_reachable).
Defined.

Lemma write_advances_write_cursor_witness :
  (is_write (WriteCollection [4; 5]) = true ∧
   exec 2 3 (WriteCollection [4; 5]) one_written =
     Some (WroteCollection 2, full)) ∧
  writeIndex_ full = (writeIndex_ one_written + 1) mod 2 ∧
  readIndex_ full = readIndex_ one_written.
Proof.
  assert (Hexec : exec 2 3 (WriteCollection [4; 5]) one_written =
                  Some (WroteCollection 2, full)) by (vm_compute; reflexivity).
  split; [split; [reflexivity | exact Hexec]|].
  apply (write_advances_write_cursor 2 3 (WriteCollection [4; 5]) one_written
           _ _ eq_refl Hexec).
Defined.

Lemma block_read_advances_read_cursor_witness :
  (is_block_read (Read out0) = true ∧
   exec 2 3 (Read out0) one_written = Some (ReadReply true b123, one_read) ∧
   succeeded (ReadReply true b123) = true) ∧
  readIndex_ one_read = (readIndex_ one_written + 1) mod 2 ∧
  writeIndex_ one_read = writeIndex_ one_written.
Proof.
  assert (Hexec : exec 2 3 (Read out0) one_written =
                  Some (ReadReply true b123, one_read))
    by (vm_compute; reflexivity).
  split; [split_and!; [reflexivity | exact Hexec | reflexivity]|].
  apply (block_read_advances_read_cursor 2 3 (Read out0) one_written
           (ReadReply true b123) one_read eq_refl Hexec eq_refl).
Defined.

Lemma failed_read_frame_witness :
  (exec 2 3 (Read out0) full =
     Some (ReadReply false out0, mkRingBuffer 0 1 0 0 [b123; b45]) ∧
   succeeded (ReadReply false out0) = false) ∧
  ReadReply false out0 = untouched (Read out0) ∧
  blocks_ (mkRingBuffer 0 1 0 0 [b123; b45]) = blocks_ full.
Proof.
  assert (Hexec : exec 2 3 (Read out0) full =
                  Some (ReadReply false out0, mkRingBuffer 0 1 0 0 [b123; b45]))
    by (vm_compute; reflexivity).
  split; [split; [exact Hexec | reflexivity]|].
  destruct (failed_read_frame 2 3 (Read out0) full (ReadReply false out0) _
              Hexec eq_refl)
    as (Hr & _ & _ & Hbs & _).
  split; [exact Hr | exact Hbs].
Defined.


Lemma timed_read_agrees_with_blocking_witness :
  readSemaphore_ one_written ≠ 0 ∧
  exec 2 3 (ReadFor out0 1000) one_written = exec 2 3 (Read out0) one_written.
Proof.
  assert (Hrs : readSemaphore_ one_written ≠ 0) by (simpl; lia).
  split; [exact Hrs|].
  apply (timed_read_agrees_with_blocking 2 3 one_written out0 no_items
           [] 0 1000 Hrs).
Defined.

Lemma capacity_bound_witness :
  (Forall (λ c, is_write c = true) [Write b123; WriteCollection [4; 5]] ∧
   length [Write b123; WriteCollection [4; 5]] = 2 ∧
   is_write (Write b1) = true) ∧
  ∃ rs rb,
    run 2 3 [Write b123; WriteCollection [4; 5]] fresh = Some (rs, rb) ∧
    writeSemaphore_ rb = 0 ∧
    exec 2 3 (Write b1) rb = None.
Proof.
  assert (Hw : Forall (λ c : @call nat, is_write c = true)
                 [Write b123; WriteCollection [4; 5]])
    by (repeat constructor).
  split; [split_and!; [exact Hw | reflexivity | reflexivity]|].
  apply (capacity_bound 2 3 _ (value_initialised 2 3 0) (Write b1)
           Hw eq_refl eq_refl).
Defined.

Lemma full_buffer_is_stuck_witness :
  (Forall (λ c, is_write c = true) [Write b123; WriteCollection [4; 5]] ∧
   length [Write b123; WriteCollection [4; 5]] = 2) ∧
  ∃ rs0 rb0,
    run 2 3 [Write b123; WriteCollection [4; 5]] fresh = Some (rs0, rb0) ∧
    ∀ calls rs rb,
      run 2 3 calls rb0 = Some (rs, rb) →
      Forall (λ r, succeeded r = false) rs ∧ blocks_ rb = blocks_ rb0.
Proof.
  assert (Hw : Forall (λ c : @call nat, is_write c = true)
                 [Write b123; WriteCollection [4; 5]])
    by (repeat constructor).
  split; [split; [exact Hw | reflexivity]|].
  apply (full_buffer_is_stuck 2 3 _ (value_initialised 2 3 0) Hw eq_refl).
Defined.

Lemma fifo_below_capacity_witness :
  (length (value_initialised 3 3 0) = 3 ∧
   length [b123; b45] < 3 ∧
   length [out0; out0] = length [b123; b45]) ∧
  ∃ rb rb',
    write_all 3 [b123; b45] (RingBuffer_new 3 (value_initialised 3 3 0)) =
      Some (tt, rb) ∧
    read_all 3 [out0; out0] rb = Some ([(true, b123); (true, b45)], rb').
Proof.
  assert (Hlt : length [b123; b45] < 3) by (simpl; lia).
  split; [split_and!; [reflexivity | exact Hlt | reflexivity]|].
  apply (fifo_below_capacity 3 [b123; b45] (value_initialised 3 3 0)
           [out0; out0] eq_refl Hlt eq_refl).
Defined.

Lemma block_reads_are_fifo_witness :
  let rs := [Wrote; ReadReply true b1; Wrote; ReadReply true b2; Wrote;
             ReadReply true b3] in
  let rb := mkRingBuffer 2 0 1 1 [b3; b2] in
  (0 < 2 ∧ length (value_initialised 2 3 0) = 2 ∧
   Forall (λ c, is_block_call c = true) alternating_calls ∧
   run 2 3 alternating_calls fresh = Some (rs, rb)) ∧
  fifo_replies alternating_calls rs [].
Proof.
  intros rs rb.
  assert (Hpos : 0 < 2) by lia.
  assert (Hcalls : Forall (λ c : @call nat, is_block_call c = true)
                     alternating_calls) by (repeat constructor).
  assert (Hrun : run 2 3 alternating_calls fresh = Some (rs, rb))
    by (vm_compute; reflexivity).
  split; [split_and!; [exact Hpos | reflexivity | exact Hcalls | exact Hrun]|].
  apply (block_reads_are_fifo 2 3 alternating_calls (value_initialised 2 3 0)
           rs rb Hpos eq_refl Hcalls Hrun).
Defined.

Lemma writes_and_block_reads_never_overwrite_witness :
  let res := (false, mkRingBuffer 2 0 1 1 [b3; b2], [false; false]) in
  (0 < 2 ∧
   Forall (λ c, is_func_read c = false) alternating_calls ∧
   run_marked 2 3 alternating_calls fresh (replicate 2 false) = Some res) ∧
  res.1.1 = false.
Proof.
  intros res.
  assert (Hpos : 0 < 2) by lia.
  assert (Hcalls : Forall (λ c : @call nat, is_func_read c = false)
                     alternating_calls) by (repeat constructor).
  assert (Hrun : run_marked 2 3 alternating_calls
                   (RingBuffer_new 2 (value_initialised 2 3 0))
                   (replicate 2 false) = Some res)
    by (vm_compute; reflexivity).
  split; [split_and!; [exact Hpos | exact Hcalls | exact Hrun]|].
  apply (writes_and_block_reads_never_overwrite 2 3 alternating_calls
           (value_initialised 2 3 0) res Hpos Hcalls Hrun).
Defined.

Lemma write_collection_read_block_round_trip_witness :
  (1 < 2 ∧ writeSemaphore_ fresh = 2 ∧
   writeIndex_ fresh = readIndex_ fresh ∧ writeIndex_ fresh < 2 ∧
   length (blocks_ fresh) = 2 ∧
   block_wf 3 (blocks_ fresh !!! writeIndex_ fresh)) ∧
  ∃ rb1 b rb2,
    write_collection 2 3 [1; 2; 3; 4; 5] fresh = Some (3, rb1) ∧
    read_block 2 out0 rb1 = Some ((true, b), rb2) ∧
    size_ b = 3 ∧
    take (size_ b) (data_ b) = [1; 2; 3] ∧
    block_wf 3 b.
Proof.
  assert (H1 : 1 < 2) by lia.
  assert (H2 : writeIndex_ fresh < 2) by (simpl; lia).
  split; [split_and!; [exact H1 | reflexivity | reflexivity | exact H2
                      | reflexivity | reflexivity]|].
  apply (write_collection_read_block_round_trip 2 3 [1; 2; 3; 4; 5] out0
           fresh 1 H1 eq_refl eq_refl H2 eq_refl eq_refl).
Defined.

Lemma read_bytes_copies_prefix_witness :
  let rb' := mkRingBuffer 2 0 1 0 (blocks_ bytes_written) in
  (read_bytes memory 4 bytes_written =
     Some ((true, ([Byte.x01; Byte.x02; Byte.xff; Byte.xff], 2)), rb') ∧
   4 ≤ length memory ∧
   size_ (blocks_ bytes_written !!! readIndex_ bytes_written) ≤
     length (data_ (blocks_ bytes_written !!! readIndex_ bytes_written))) ∧
  2 = 4 `min` size_ (blocks_ bytes_written !!! readIndex_ bytes_written) ∧
  drop 2 [Byte.x01; Byte.x02; Byte.xff; Byte.xff] = drop 2 memory.
Proof.
  intros rb'.
  assert (Hread : read_bytes memory 4 bytes_written =
            Some ((true, ([Byte.x01; Byte.x02; Byte.xff; Byte.xff], 2)), rb'))
    by (vm_compute; reflexivity).
  assert (Hmem : 4 ≤ length memory) by (simpl; lia).
  assert (Hslot : size_ (blocks_ bytes_written !!! readIndex_ bytes_written) ≤
            length (data_ (blocks_ bytes_written !!! readIndex_ bytes_written)))
    by (simpl; lia).
  split; [split_and!; [exact Hread | exact Hmem | exact Hslot]|].
  destruct (read_bytes_copies_prefix memory 4 bytes_written _ _ _
              Hread Hmem Hslot) as (Hsize & _ & Hdrop & _).
  split; [exact Hsize | exact Hdrop].
Defined.

Lemma collection_read_appends_data_array_witness :
  let rb' := mkRingBuffer 2 0 1 0 [b45; b000] in
  (read_collection no_items two_elements_written =
     Some ((true, Vector [4; 5; 0] 4), rb') ∧
   block_wf 3 (blocks_ two_elements_written !!!
               readIndex_ two_elements_written)) ∧
  length (items (Vector [4; 5; 0] 4)) = length (items no_items) + 3.
Proof.
  intros rb'.
  assert (Hread : read_collection no_items two_elements_written =
                  Some ((true, Vector [4; 5; 0] 4), rb'))
    by (vm_compute; reflexivity).
  split; [split; [exact Hread | reflexivity]|].
  apply (collection_read_appends_data_array 3 no_items (Vector [4; 5; 0] 4) 0
           two_elements_written rb' (or_introl Hread) eq_refl).
Defined.

Lemma single_slot_never_delivers_witness :
  (reachable 1 3 single_written ∧
   is_write (Read out0) = false ∧
   exec 1 3 (Read out0) single_written =
     Some (ReadReply false out0, mkRingBuffer 0 0 0 0 [b123])) ∧
  succeeded (ReadReply false out0) = false.
Proof.
  assert (Hexec : exec 1 3 (Read out0) single_written =
                  Some (ReadReply false out0, mkRingBuffer 0 0 0 0 [b123]))
    by (vm_compute; reflexivity).
  split; [split_and!; [exact single_written_reachable | reflexivity
                      | exact Hexec]|].
  apply (single_slot_never_delivers 1 3 (Read out0) single_written _ _
           eq_refl single_written_reachable eq_refl Hexec).
Defined.

Lemma slots_keep_block_size_witness :
  (Forall (block_wf 3) (blocks_ fresh) ∧
   exec 2 3 (WriteCollection [4; 5]) fresh =
     Some (WroteCollection 2, two_elements_written)) ∧
  Forall (block_wf 3) (blocks_ two_elements_written).
Proof.
  assert (Hslots : Forall (block_wf 3) (blocks_ fresh))
    by (repeat constructor).
  assert (Hexec : exec 2 3 (WriteCollection [4; 5]) fresh =
                  Some (WroteCollection 2, two_elements_written))
    by (vm_compute; reflexivity).
  split; [split; [exact Hslots | exact Hexec]|].
  apply (slots_keep_block_size 2 3 (WriteCollection [4; 5]) fresh
           (WroteCollection 2) two_elements_written Hslots); [|exact Hexec].
  intros data Hdata. discriminate Hdata.
Defined.

Lemma write_block_stores_witness :
  (exec 2 3 (Write b123) fresh = Some (Wrote, one_written) ∧
   writeIndex_ fresh < length (blocks_ fresh)) ∧
  blocks_ one_written !! writeIndex_ fresh = Some b123.
Proof.
  assert (Hexec : exec 2 3 (Write b123) fresh = Some (Wrote, one_written))
    by (vm_compute; reflexivity).
  assert (Hwi : writeIndex_ fresh < length (blocks_ fresh)) by (simpl; lia).
  split; [split; [exact Hexec | exact Hwi]|].
  apply (write_block_stores 2 3 b123 fresh Wrote one_written Hexec Hwi).
Defined.

Lemma reads_leave_slots_witness :
  (is_write (ReadCollection no_items) = false ∧
   exec 2 3 (ReadCollection no_items) one_written =
     Some (ReadCollectionReply true (Vector [1; 2; 3] 3),
           mkRingBuffer 2 0 1 0 [b123; b000])) ∧
  blocks_ (mkRingBuffer 2 0 1 0 [b123; b000]) = blocks_ one_written ∧
  writeIndex_ (mkRingBuffer 2 0 1 0 [b123; b000]) = writeIndex_ one_written.
Proof.
  assert (Hexec : exec 2 3 (ReadCollection no_items) one_written =
            Some (ReadCollectionReply true (Vector [1; 2; 3] 3),
                  mkRingBuffer 2 0 1 0 [b123; b000]))
    by (vm_compute; reflexivity).
  split; [split; [reflexivity | exact Hexec]|].
  apply (reads_leave_slots 2 3 (ReadCollection no_items) one_written _ _
           eq_refl Hexec).
Defined.

Lemma write_collection_read_collection_round_trip_witness :
  (1 < 2 ∧ writeSemaphore_ fresh = 2 ∧
   writeIndex_ fresh = readIndex_ fresh ∧ writeIndex_ fresh < 2 ∧
   length (blocks_ fresh) = 2) ∧
  ∃ rb1 dst' rb2,
    write_collection 2 3 [4; 5] fresh = Some (2, rb1) ∧
    read_collection no_items rb1 = Some ((true, dst'), rb2) ∧
    items dst' = [4; 5; 0].
Proof.
  assert (H1 : 1 < 2) by lia.
  assert (H2 : writeIndex_ fresh < 2) by (simpl; lia).
  split; [split_and!; [exact H1 | reflexivity | reflexivity | exact H2
                      | reflexivity]|].
  destruct (write_collection_read_collection_round_trip 2 3 [4; 5] no_items
              fresh 1 H1 eq_refl eq_refl H2 eq_refl)
    as (rb1 & dst' & rb2 & Hwrite & Hread & Hitems).
  exists rb1, dst', rb2.
  split_and!; [exact Hwrite | exact Hread | exact Hitems].
Defined.

End scenario_reachable.
